(** * The transaction cache: per-sender lists and the sender registry

  A shallow embedding of [storage/txcache]: the sorted list of transactions
  of one sender ([txListForSender]) and the map of these lists by sender
  ([txListBySenderMap]), with the properties of the cache's specification
  proved, or refuted, over the embedding. *)

From stdpp Require Import base option list sorting gmap strings.
From Stdlib Require Import ZArith Lia.

Local Open Scope Z_scope.

(** [[]byte]: a hash is a sequence of bytes; the nil slice is the empty one. *)
Abbreviation bytes := (list Byte.byte).

(** Sum of an integer measure over a list. *)
Definition sumZ {A} (f : A → Z) (l : list A) : Z :=
foldr (λ x acc, f x + acc) 0 l.

(** ** Go's [container/list], as the cache uses it

  A [*list.Element] is a pointer: the embedding gives every element the
  address [eid] it was allocated at, next to the [Value] it carries (the
  cache never reassigns [Value]).  The list itself is the sequence of its
  elements from front to back.  An element that was removed keeps its
  value, but belongs to no list any more: [Next] and [Prev] return nil for
  it, and [Remove] and [InsertBefore] ignore it. *)
Module ContainerList.
Section Elements.
Context {A : Type}.

Record Element := mkElement { eid : nat; Value : A }.

(** Position of the element with the address of [e], if it is in the list. *)
Fixpoint indexOf (l : list Element) (e : Element) : option nat :=
  match l with
  | [] => None
  | x :: r => if decide (eid x = eid e) then Some 0%nat else S <$> indexOf r e
  end.

Definition Len (l : list Element) : Z := Z.of_nat (length l).

Definition Front (l : list Element) : option Element := head l.

Definition Back (l : list Element) : option Element := last l.

Definition Next (l : list Element) (e : Element) : option Element :=
  match indexOf l e with
  | Some i => l !! S i
  | None => None
  end.

Definition Prev (l : list Element) (e : Element) : option Element :=
  match indexOf l e with
  | Some (S i) => l !! i
  | _ => None
  end.

Definition Remove (l : list Element) (e : Element) : list Element :=
  match indexOf l e with
  | Some i => delete i l
  | None => l
  end.

Definition PushBack (l : list Element) (new : Element) : list Element :=
  l ++ [new].

Definition InsertBefore (l : list Element) (new mark : Element) : list Element :=
  match indexOf l mark with
  | Some i => take i l ++ new :: drop i l
  | None => l
  end.

(** No two elements of a list share an address. *)
Definition distinct (l : list Element) : Prop := NoDup (eid <$> l).
End Elements.
Global Arguments Element : clear implicits.
End ContainerList.

Import ContainerList.

(** ** Transactions and counters *)

(** [data.TransactionHandler] is an interface that holds a pointer to the
  transaction: [==] on two handlers compares the pointers.  [Tx] is the type
  of these handles.  The nonce ([uint64]) and the sender's address are read
  through the handle, and so are the three cost estimates, which the package
  defines in another file. *)
Class TransactionHandler (Tx : Type) := {
  handler_eq_dec :: EqDecision Tx;
  GetNonce : Tx → Z;
  GetSndAddr : Tx → string;
  estimateTxSize : Tx → Z;
  estimateTxGas : Tx → Z;
  estimateTxFee : Tx → Z
}.

(** The value of a 64-bit two's complement integer: the counters of the
  cache are [int64] cells updated with atomic additions, which wrap around. *)
Definition wrapInt64 (z : Z) : Z := (z + 2 ^ 63) mod 2 ^ 64 - 2 ^ 63.

(** [core.AtomicCounter]. *)
Module AtomicCounter.
Definition Add (counter value : Z) : Z := wrapInt64 (counter + value).
Definition Subtract (counter value : Z) : Z := wrapInt64 (counter - value).
Definition Increment (counter : Z) : Z := wrapInt64 (counter + 1).
Definition Decrement (counter : Z) : Z := wrapInt64 (counter - 1).
End AtomicCounter.

(** ** [txListForSender]: the sorted list of transactions of one sender *)
Module TxListForSender.

(** A node of the linked list. *)
Record txListForSenderNode (Tx : Type) := mkNode { txHash : bytes; tx : Tx }.
Global Arguments mkNode {Tx}.
Global Arguments txHash {Tx}.
Global Arguments tx {Tx}.

Abbreviation Elem Tx := (Element (txListForSenderNode Tx)).

(** The list of one sender.  [nextElem] is the address the next allocated
  element gets.  The mutex serialises the methods, each of which is one
  step here; the score fields are not used by these methods. *)
Record txListForSender (Tx : Type) := mkList {
  items : list (Elem Tx);
  nextElem : nat;
  copyBatchIndex : option (Elem Tx);
  totalBytes : Z;
  totalGas : Z;
  totalFee : Z;
  sender : string
}.
Global Arguments mkList {Tx}.
Global Arguments items {Tx}.
Global Arguments nextElem {Tx}.
Global Arguments copyBatchIndex {Tx}.
Global Arguments totalBytes {Tx}.
Global Arguments totalGas {Tx}.
Global Arguments totalFee {Tx}.
Global Arguments sender {Tx}.

Definition newTxListForSender {Tx} (sender : string) : txListForSender Tx :=
  {| items := []; nextElem := 0; copyBatchIndex := None;
     totalBytes := 0; totalGas := 0; totalFee := 0; sender := sender |}.

Definition nonceOf `{TransactionHandler Tx} (e : Elem Tx) : Z :=
  GetNonce (tx (Value e)).

Definition onAddedTransaction `{TransactionHandler Tx} (t : Tx)
    (l : txListForSender Tx) : txListForSender Tx :=
  {| items := items l; nextElem := nextElem l; copyBatchIndex := copyBatchIndex l;
     totalBytes := AtomicCounter.Add (totalBytes l) (estimateTxSize t);
     totalGas := AtomicCounter.Add (totalGas l) (estimateTxGas t);
     totalFee := AtomicCounter.Add (totalFee l) (estimateTxFee t);
     sender := sender l |}.

(** The walk from [Front] along [Next]: the first element whose nonce is
  larger than [nonce]. *)
Fixpoint findTxWithLargerNonce `{TransactionHandler Tx} (els : list (Elem Tx))
    (nonce : Z) : option (Elem Tx) :=
  match els with
  | [] => None
  | element :: rest =>
      if decide (nonceOf element > nonce) then Some element
      else findTxWithLargerNonce rest nonce
  end.

(** [listForSender.items = v]. *)
Definition setItems {Tx} (v : list (Elem Tx)) (l : txListForSender Tx)
    : txListForSender Tx :=
  {| items := v; nextElem := nextElem l; copyBatchIndex := copyBatchIndex l;
     totalBytes := totalBytes l; totalGas := totalGas l;
     totalFee := totalFee l; sender := sender l |}.

(** Allocation of a list element. *)
Definition allocElem {Tx} (l : txListForSender Tx) : txListForSender Tx :=
  {| items := items l; nextElem := S (nextElem l);
     copyBatchIndex := copyBatchIndex l;
     totalBytes := totalBytes l; totalGas := totalGas l;
     totalFee := totalFee l; sender := sender l |}.

Definition AddTx `{TransactionHandler Tx} (hash : bytes) (t : Tx)
    (l : txListForSender Tx) : txListForSender Tx :=
  let nonce := GetNonce t in
  let mark := findTxWithLargerNonce (items l) nonce in
  let newNode := mkElement (nextElem l) (mkNode hash t) in
  let items' :=
    match mark with
    | None => PushBack (items l) newNode
    | Some m => InsertBefore (items l) newNode m
    end in
  onAddedTransaction t (setItems items' (allocElem l)).

(** As in the source: the size is subtracted from [totalBytes], and both
  the gas and the fee are subtracted from [totalGas]. *)
Definition onRemovedListElement `{TransactionHandler Tx} (element : Elem Tx)
    (l : txListForSender Tx) : txListForSender Tx :=
  let value := Value element in
  let bytes1 := AtomicCounter.Subtract (totalBytes l) (estimateTxSize (tx value)) in
  let gas1 := AtomicCounter.Subtract (totalGas l) (estimateTxGas (tx value)) in
  let gas2 := AtomicCounter.Subtract gas1 (estimateTxFee (tx value)) in
  {| items := items l; nextElem := nextElem l; copyBatchIndex := copyBatchIndex l;
     totalBytes := bytes1; totalGas := gas2; totalFee := totalFee l;
     sender := sender l |}.

(** The walk from [Front] along [Next], with its early exit. *)
Fixpoint findListElementWithTx `{TransactionHandler Tx} (els : list (Elem Tx))
    (txToFind : Tx) : option (Elem Tx) :=
  match els with
  | [] => None
  | element :: rest =>
      if decide (tx (Value element) = txToFind) then Some element
      else if decide (nonceOf element > GetNonce txToFind) then None
      else findListElementWithTx rest txToFind
  end.

Definition RemoveTx `{TransactionHandler Tx} (t : Tx) (l : txListForSender Tx)
    : txListForSender Tx * bool :=
  match findListElementWithTx (items l) t with
  | Some marker =>
      (onRemovedListElement marker (setItems (Remove (items l) marker) l), true)
  | None => (l, false)
  end.

(** The loop of [RemoveHighNonceTxs].  [todo] is [count - index]: the test
  [count > index] fails exactly when it is zero. *)
Fixpoint removeFromBack `{TransactionHandler Tx} (todo : nat) (index : nat)
    (element : option (Elem Tx)) (l : txListForSender Tx)
    (removedTxHashes : list bytes) : txListForSender Tx * list bytes :=
  match element, todo with
  | Some e, S todo' =>
      let previous := Prev (items l) e in
      let l' := onRemovedListElement e (setItems (Remove (items l) e) l) in
      let removed' := <[index := txHash (Value e)]> removedTxHashes in
      removeFromBack todo' (S index) previous l' removed'
  | _, _ => (l, removedTxHashes)
  end.

(** [count] is a [uint32]; [make([][]byte, count)] is [count] nil slices. *)
Definition RemoveHighNonceTxs `{TransactionHandler Tx} (count : nat)
    (l : txListForSender Tx) : txListForSender Tx * list bytes :=
  let removedTxHashes := replicate count ([] : bytes) in
  removeFromBack count 0 (Back (items l)) l removedTxHashes.

Definition countTx {Tx} (l : txListForSender Tx) : Z := Len (items l).

Definition IsEmpty {Tx} (l : txListForSender Tx) : bool :=
  bool_decide (countTx l = 0).

(** Result of a batch copy: the element the walk stopped at, the number of
  copied transactions and the two destination slices.  A slot of
  [destination] holds a handler or nil. *)
Record copyResult (Tx : Type) := mkCopy {
  stoppedAt : option (Elem Tx);
  copied : nat;
  destination : list (option Tx);
  destinationHashes : list bytes
}.
Global Arguments mkCopy {Tx}.
Global Arguments stoppedAt {Tx}.
Global Arguments copied {Tx}.
Global Arguments destination {Tx}.
Global Arguments destinationHashes {Tx}.

(** The loop of [copyBatchTo].  [space] is [availableSpace - copied]: the
  test [copied == availableSpace] holds exactly when it is zero.  A write
  past the end of [destinationHashes] panics: the loop gives [None]. *)
Fixpoint copyLoop {Tx} (els : list (Elem Tx)) (batchSize : Z) (space : nat)
    (element : option (Elem Tx)) (copied : nat)
    (destination : list (option Tx)) (destinationHashes : list bytes)
    : option (copyResult Tx) :=
  match element with
  | None => Some (mkCopy element copied destination destinationHashes)
  | Some e =>
      if decide (Z.of_nat copied = batchSize)
      then Some (mkCopy element copied destination destinationHashes)
      else match space with
      | O => Some (mkCopy element copied destination destinationHashes)
      | S space' =>
          if decide (copied < length destinationHashes)%nat then
            copyLoop els batchSize space' (Next els e) (S copied)
              (<[copied := Some (tx (Value e))]> destination)
              (<[copied := txHash (Value e)]> destinationHashes)
          else None
      end
  end.

Definition setCopyBatchIndex {Tx} (element : option (Elem Tx))
    (l : txListForSender Tx) : txListForSender Tx :=
  {| items := items l; nextElem := nextElem l; copyBatchIndex := element;
     totalBytes := totalBytes l; totalGas := totalGas l;
     totalFee := totalFee l; sender := sender l |}.

(** The first statement of [copyBatchTo]: the reset of the cursor. *)
Definition resetCursor {Tx} (withReset : bool) (l : txListForSender Tx)
    : txListForSender Tx :=
  if withReset then setCopyBatchIndex (Front (items l)) l else l.

(** [copyBatchTo] gives the list and the result of the copy; [None] is a
  panic, which leaves the list as [resetCursor] made it. *)
Definition copyBatchTo {Tx} (withReset : bool) (destination : list (option Tx))
    (destinationHashes : list bytes) (batchSize : Z) (l : txListForSender Tx)
    : option (txListForSender Tx * copyResult Tx) :=
  let l1 := resetCursor withReset l in
  let element := copyBatchIndex l1 in
  let availableSpace := length destination in
  match element with
  | None => Some (l1, mkCopy None 0 destination destinationHashes)
  | Some _ =>
      r ← copyLoop (items l1) batchSize availableSpace element 0
            destination destinationHashes;
      Some (setCopyBatchIndex (stoppedAt r) l1, r)
  end.

(** The hashes of a sequence of elements. *)
Definition hashesOf {Tx} (els : list (Elem Tx)) : list bytes :=
  (λ e, txHash (Value e)) <$> els.

(** The handlers of a sequence of elements, as a destination holds them. *)
Definition handlersOf {Tx} (els : list (Elem Tx)) : list (option Tx) :=
  (λ e, Some (tx (Value e))) <$> els.

Definition getTxHashes {Tx} (l : txListForSender Tx) : list bytes :=
  hashesOf (items l).

(** *** Sequences of calls on one list *)

Inductive Op (Tx : Type) :=
  | OpAddTx (hash : bytes) (t : Tx)
  | OpRemoveTx (t : Tx)
  | OpRemoveHighNonceTxs (count : nat)
  | OpCopyBatchTo (withReset : bool) (destination : list (option Tx))
      (destinationHashes : list bytes) (batchSize : Z).
Global Arguments OpAddTx {Tx}.
Global Arguments OpRemoveTx {Tx}.
Global Arguments OpRemoveHighNonceTxs {Tx}.
Global Arguments OpCopyBatchTo {Tx}.

(** The list after one call. *)
Definition applyOp `{TransactionHandler Tx} (l : txListForSender Tx) (op : Op Tx)
    : txListForSender Tx :=
  match op with
  | OpAddTx hash t => AddTx hash t l
  | OpRemoveTx t => (RemoveTx t l).1
  | OpRemoveHighNonceTxs count => (RemoveHighNonceTxs count l).1
  | OpCopyBatchTo withReset dst dstHashes batchSize =>
      match copyBatchTo withReset dst dstHashes batchSize l with
      | Some (l', _) => l'
      | None => resetCursor withReset l
      end
  end.

Definition run `{TransactionHandler Tx} (ops : list (Op Tx))
    (l : txListForSender Tx) : txListForSender Tx :=
  foldl applyOp l ops.

(** The operations that mutate the sequence, and the copies that do not
  reset the cursor. *)
Definition withoutReset {Tx} (op : Op Tx) : bool :=
  match op with
  | OpCopyBatchTo withReset _ _ _ => negb withReset
  | _ => true
  end.

(** *** The invariants of a list *)

(** The addresses of the elements are distinct and were allocated. *)
Definition wellFormed {Tx} (l : txListForSender Tx) : Prop :=
  distinct (items l) ∧ Forall (λ e, (eid e < nextElem l)%nat) (items l).

(** The sequence is non-decreasing by nonce. *)
Definition sortedByNonce `{TransactionHandler Tx} (els : list (Elem Tx)) : Prop :=
  StronglySorted (λ a b, nonceOf a ≤ nonceOf b) els.

(** The same, between neighbours only. *)
Definition locallySorted `{TransactionHandler Tx} (els : list (Elem Tx)) : Prop :=
  ∀ (i : nat) a b, els !! i = Some a → els !! S i = Some b → nonceOf a ≤ nonceOf b.

(** The entries of a sequence with the nonce of [t]. *)
Definition sameNonce `{TransactionHandler Tx} (t : Tx) (els : list (Elem Tx))
    : list (Elem Tx) :=
  filter (λ e, nonceOf e = GetNonce t) els.

(** The exact sums over the transactions that are present. *)
Definition sumSize `{TransactionHandler Tx} (els : list (Elem Tx)) : Z :=
  sumZ (λ e, estimateTxSize (tx (Value e))) els.
Definition sumGas `{TransactionHandler Tx} (els : list (Elem Tx)) : Z :=
  sumZ (λ e, estimateTxGas (tx (Value e))) els.
Definition sumFee `{TransactionHandler Tx} (els : list (Elem Tx)) : Z :=
  sumZ (λ e, estimateTxFee (tx (Value e))) els.

(** [totalBytes] is the sum of the sizes, as a 64-bit counter holds it. *)
Definition bytesExact `{TransactionHandler Tx} (l : txListForSender Tx) : Prop :=
  totalBytes l = wrapInt64 (sumSize (items l)).

(** A sweep: one call of [copyBatchTo] per entry of [calls], the first one
  with [reset] and the following ones without; the entries copied by each
  call (the first [copied] slots of its buffers) are concatenated. *)
Record batchCall (Tx : Type) := mkCall {
  callDestination : list (option Tx);
  callHashes : list bytes;
  callBatchSize : Z
}.
Global Arguments mkCall {Tx}.
Global Arguments callDestination {Tx}.
Global Arguments callHashes {Tx}.
Global Arguments callBatchSize {Tx}.

Fixpoint sweep {Tx} (reset : bool) (calls : list (batchCall Tx))
    (l : txListForSender Tx)
    : option (txListForSender Tx * list (option Tx) * list bytes) :=
  match calls with
  | [] => Some (l, [], [])
  | c :: rest =>
      '(l1, r) ← copyBatchTo reset (callDestination c) (callHashes c)
                   (callBatchSize c) l;
      '(l2, txs, hashes) ← sweep false rest l1;
      Some (l2, take (copied r) (destination r) ++ txs,
                take (copied r) (destinationHashes r) ++ hashes)
  end.

(** The cursor rests on the entry at position [p] of the sequence, or is nil
  when the sequence has no such entry. *)
Definition cursorAt {Tx} (l : txListForSender Tx) (p : nat) : Prop :=
  copyBatchIndex l = items l !! p.

(** What one call may copy at most: [min(batchSize, len(destination))]. *)
Definition batchQuota {Tx} (c : batchCall Tx) : nat :=
  (Z.to_nat (callBatchSize c) `min` length (callDestination c))%nat.

Definition totalQuota {Tx} (calls : list (batchCall Tx)) : nat :=
  foldr (λ c acc, (batchQuota c + acc)%nat) 0%nat calls.

(** A call with a positive batch size and a non-empty destination, whose
  slice of hashes is as long as its slice of handlers. *)
Definition usableCall {Tx} (c : batchCall Tx) : Prop :=
  0 < callBatchSize c
  ∧ (0 < length (callDestination c) ≤ length (callHashes c))%nat.

(** *** The other methods of the list *)

(** [HasMoreThan]: the count of the list, an [int64], is converted to
  [uint32] before it is compared with [count] (a [uint32]). *)
Definition HasMoreThan {Tx} (count : nat) (l : txListForSender Tx) : bool :=
  bool_decide (countTx l `mod` 2 ^ 32 > Z.of_nat count).

(** [getHighestNonceTx]: the transaction at the back, or nil. *)
Definition getHighestNonceTx {Tx} (l : txListForSender Tx) : option Tx :=
  match Back (items l) with
  | None => None
  | Some back => Some (tx (Value back))
  end.

(** The loop of [getTxHashes]: the walk from [Front] along [Next] writes the
  hash of each element at the next index of [result]. *)
Fixpoint fillTxHashes {Tx} (els : list (Elem Tx)) (index : nat)
    (result : list bytes) : list bytes :=
  match els with
  | [] => result
  | element :: rest =>
      fillTxHashes rest (S index) (<[index := txHash (Value element)]> result)
  end.

(** [getTxHashes] as the source writes it: [make([][]byte, countTx())],
  filled by index. *)
Definition getTxHashesByIndex {Tx} (l : txListForSender Tx) : list bytes :=
  fillTxHashes (items l) 0 (replicate (Z.to_nat (countTx l)) []).

(** How many entries the loop of [copyBatchTo] copies when it starts with
  [copied] entries done, [space] free slots and [remaining] entries ahead:
  the test [copied == batchSize] can only hold when [batchSize] is not
  below [copied]. *)
Definition copyCount (batchSize : Z) (copied space remaining : nat) : nat :=
  if decide (batchSize < Z.of_nat copied) then (remaining `min` space)%nat
  else (remaining `min` (space `min` Z.to_nat (batchSize - Z.of_nat copied)))%nat.

End TxListForSender.

(** ** [txListBySenderMap]: the lists of all senders *)
Module TxListBySenderMap.

(** [WrappedTransaction]: a transaction with its hash. *)
Record WrappedTransaction (Tx : Type) := mkWrapped { Tx_ : Tx; TxHash : bytes }.
Global Arguments mkWrapped {Tx}.
Global Arguments Tx_ {Tx}.
Global Arguments TxHash {Tx}.

(** The methods of a sender's list that the map calls.  The map is written
  against a later revision of the list than the one embedded above
  ([AddTx] takes a wrapped transaction and reports whether it inserted it
  and which hashes it evicted), so the map is embedded over any list with
  these methods; [R] is the type of the report of [AddTx]. *)
Class ListForSender (Tx L R : Type) := {
  newList : string → L;
  listAddTx : WrappedTransaction Tx → L → L * R;
  listRemoveTx : WrappedTransaction Tx → L → L * bool;
  listIsEmpty : L → bool
}.

(** Modelled from the spec: [maps.BucketSortedMap], the Score Bucket Index,
  belongs to another package.  The spec gives it [Set] (here [SetItem]) ("inserts or
  overwrites the entry under its identifier"), [Get], [Has], [Remove] and
  [Clear] ("removes all entries"); its score buckets order the snapshots
  and never change which identifiers are present, so the index is the
  finite map from identifiers to entries ([NotifyScoreChange], which a list
  calls when its score changes, "relocates the entry's bucket membership
  without altering the primary identifier mapping").  The identifier of a
  list is its sender. *)
Module BucketSortedMap.
Definition SetItem {L} (key : string) (item : L) (m : gmap string L) : gmap string L :=
  <[key := item]> m.
Definition Get {L} (key : string) (m : gmap string L) : option L := m !! key.
Definition Has {L} (key : string) (m : gmap string L) : bool :=
  bool_decide (is_Some (m !! key)).
Definition Remove {L} (key : string) (m : gmap string L) : gmap string L :=
  delete key m.
Definition Clear {L} (m : gmap string L) : gmap string L := ∅.
End BucketSortedMap.

(** The map: the index and [atomic.Counter], a 64-bit counter.  The
  configuration is only handed to new lists, and the mutex serialises the
  creation of lists. *)
Record txListBySenderMap (L : Type) := mkMap {
  backingMap : gmap string L;
  counter : Z
}.
Global Arguments mkMap {L}.
Global Arguments backingMap {L}.
Global Arguments counter {L}.

Definition newTxListBySenderMap {L} : txListBySenderMap L :=
  {| backingMap := ∅; counter := 0 |}.

Definition getListForSender {L} (sender : string) (txMap : txListBySenderMap L)
    : option L :=
  BucketSortedMap.Get sender (backingMap txMap).

Definition addSender `{ListForSender Tx L R} (sender : string)
    (txMap : txListBySenderMap L) : txListBySenderMap L * L :=
  let listForSender := newList sender in
  ({| backingMap := BucketSortedMap.SetItem sender listForSender (backingMap txMap);
      counter := AtomicCounter.Increment (counter txMap) |}, listForSender).

(** One caller at a time: the second lookup, under the mutex, repeats the
  first. *)
Definition getOrAddListForSender `{ListForSender Tx L R} (sender : string)
    (txMap : txListBySenderMap L) : txListBySenderMap L * L :=
  match getListForSender sender txMap with
  | Some listForSender => (txMap, listForSender)
  | None =>
      match getListForSender sender txMap with
      | Some listForSender => (txMap, listForSender)
      | None => addSender sender txMap
      end
  end.

(** A method of a list acts on the list the index points to: the entry of
  [sender] is the list as the method left it. *)
Definition updateList {L} (sender : string) (listForSender : L)
    (txMap : txListBySenderMap L) : txListBySenderMap L :=
  {| backingMap := <[sender := listForSender]> (backingMap txMap);
     counter := counter txMap |}.

Definition addTx `{TransactionHandler Tx} `{!ListForSender Tx L R}
    (w : WrappedTransaction Tx) (txMap : txListBySenderMap L)
    : txListBySenderMap L * R :=
  let sender := GetSndAddr (Tx_ w) in
  let '(txMap1, listForSender) := getOrAddListForSender sender txMap in
  let '(listForSender', report) := listAddTx w listForSender in
  (updateList sender listForSender' txMap1, report).

Definition removeSender {L} (sender : string) (txMap : txListBySenderMap L)
    : txListBySenderMap L * bool :=
  if BucketSortedMap.Has sender (backingMap txMap) then
    ({| backingMap := BucketSortedMap.Remove sender (backingMap txMap);
        counter := AtomicCounter.Decrement (counter txMap) |}, true)
  else (txMap, false).

Definition removeTx `{TransactionHandler Tx} `{!ListForSender Tx L R}
    (w : WrappedTransaction Tx) (txMap : txListBySenderMap L)
    : txListBySenderMap L * bool :=
  let sender := GetSndAddr (Tx_ w) in
  match getListForSender sender txMap with
  | None => (txMap, false)
  | Some listForSender =>
      let '(listForSender', isFound) := listRemoveTx w listForSender in
      let txMap1 := updateList sender listForSender' txMap in
      let isEmpty := listIsEmpty listForSender' in
      let txMap2 := if isEmpty then (removeSender sender txMap1).1 else txMap1 in
      (txMap2, isFound)
  end.

(** [numRemoved] is a [uint32]. *)
Fixpoint RemoveSendersBulk {L} (senders : list string)
    (txMap : txListBySenderMap L) (numRemoved : Z) : txListBySenderMap L * Z :=
  match senders with
  | [] => (txMap, numRemoved)
  | senderKey :: rest =>
      let '(txMap1, removed) := removeSender senderKey txMap in
      RemoveSendersBulk rest txMap1
        (if removed then (numRemoved + 1) mod 2 ^ 32 else numRemoved)
  end.

Definition clear {L} (txMap : txListBySenderMap L) : txListBySenderMap L :=
  {| backingMap := BucketSortedMap.Clear (backingMap txMap); counter := 0 |}.

(** *** Sequences of calls on the map *)

Inductive MapOp (Tx : Type) :=
  | MapAddTx (w : WrappedTransaction Tx)
  | MapRemoveTx (w : WrappedTransaction Tx)
  | MapRemoveSendersBulk (senders : list string)
  | MapClear.
Global Arguments MapAddTx {Tx}.
Global Arguments MapRemoveTx {Tx}.
Global Arguments MapRemoveSendersBulk {Tx}.
Global Arguments MapClear {Tx}.

Definition applyMapOp `{TransactionHandler Tx} `{!ListForSender Tx L R}
    (txMap : txListBySenderMap L) (op : MapOp Tx) : txListBySenderMap L :=
  match op with
  | MapAddTx w => (addTx w txMap).1
  | MapRemoveTx w => (removeTx w txMap).1
  | MapRemoveSendersBulk senders => (RemoveSendersBulk senders txMap 0).1
  | MapClear => clear txMap
  end.

Definition runMap `{TransactionHandler Tx} `{!ListForSender Tx L R}
    (ops : list (MapOp Tx)) (txMap : txListBySenderMap L) : txListBySenderMap L :=
  foldl applyMapOp txMap ops.

(** The number of senders reachable through the index. *)
Definition countSenders {L} (txMap : txListBySenderMap L) : Z :=
  Z.of_nat (size (backingMap txMap)).

(** The counter holds the number of senders of the index, as a 64-bit
  counter holds it. *)
Definition counted {L} (txMap : txListBySenderMap L) : Prop :=
  counter txMap = wrapInt64 (countSenders txMap).

(** Modelled from the spec: the Per-Sender Transaction List in the revision
  that the map calls, with [newTxListForSender(sender, config, callback)],
  [AddTx(tx)] reporting [(inserted, evictedHashes)], [RemoveTx(tx)] on a
  wrapped transaction and [IsEmpty()]; the sources hold an earlier revision
  of the list only.  The spec (4.1): [AddTx] "performs a sorted insertion
  keyed by tx.nonce", it is to "find the first existing entry whose nonce
  is strictly greater than the new transaction's nonce; insert immediately
  before it (or append if none found)"; when "an entry with the same nonce
  already exists" the implementer chooses one tie-break, here "keep
  existing, reject new"; "after insertion, update running totals by adding
  the new transaction's size/gas/fee"; the eviction for the capacity of a
  sender "is optional and may instead be a caller-driven policy", as it is
  here, so [AddTx] evicts no hash.  [RemoveTx] "locates the entry by
  identity match (same hash) doing a nonce-bounded linear scan (stop early
  once scanned nonce exceeds the target's nonce)", "removes it, subtracts
  its costs from the running totals" and "returns whether anything was
  removed".  [IsEmpty] is answered from the length.  The score of the list
  and its callback only move the list between the buckets of the index and
  are left out. *)
Record listOfSpec (Tx : Type) := mkListOfSpec {
  specSender : string;
  specItems : list (WrappedTransaction Tx);
  specTotalBytes : Z;
  specTotalGas : Z;
  specTotalFee : Z
}.
Global Arguments mkListOfSpec {Tx}.
Global Arguments specSender {Tx}.
Global Arguments specItems {Tx}.
Global Arguments specTotalBytes {Tx}.
Global Arguments specTotalGas {Tx}.
Global Arguments specTotalFee {Tx}.

#[global] Instance byte_eq_decision : EqDecision Byte.byte := Byte.byte_eq_dec.

Definition newListOfSpec {Tx} (sender : string) : listOfSpec Tx :=
  {| specSender := sender; specItems := [];
     specTotalBytes := 0; specTotalGas := 0; specTotalFee := 0 |}.

(** The sorted insertion: before the first entry with a larger nonce. *)
Fixpoint insertByNonce `{TransactionHandler Tx} (w : WrappedTransaction Tx)
    (els : list (WrappedTransaction Tx)) : list (WrappedTransaction Tx) :=
  match els with
  | [] => [w]
  | e :: rest =>
      if decide (GetNonce (Tx_ e) > GetNonce (Tx_ w)) then w :: e :: rest
      else e :: insertByNonce w rest
  end.

Definition specAddTx `{TransactionHandler Tx} (w : WrappedTransaction Tx)
    (l : listOfSpec Tx) : listOfSpec Tx * (bool * list bytes) :=
  if existsb (λ e, bool_decide (GetNonce (Tx_ e) = GetNonce (Tx_ w))) (specItems l)
  then (l, (false, []))
  else
    ({| specSender := specSender l;
        specItems := insertByNonce w (specItems l);
        specTotalBytes := specTotalBytes l + estimateTxSize (Tx_ w);
        specTotalGas := specTotalGas l + estimateTxGas (Tx_ w);
        specTotalFee := specTotalFee l + estimateTxFee (Tx_ w) |}, (true, [])).

(** The nonce-bounded scan for the entry with the hash of [w]: the entry
  and the sequence without it, or nothing. *)
Fixpoint takeOutByHash `{TransactionHandler Tx} (w : WrappedTransaction Tx)
    (els : list (WrappedTransaction Tx))
    : option (WrappedTransaction Tx * list (WrappedTransaction Tx)) :=
  match els with
  | [] => None
  | e :: rest =>
      if decide (TxHash e = TxHash w) then Some (e, rest)
      else if decide (GetNonce (Tx_ e) > GetNonce (Tx_ w)) then None
      else '(found, rest') ← takeOutByHash w rest; Some (found, e :: rest')
  end.

Definition specRemoveTx `{TransactionHandler Tx} (w : WrappedTransaction Tx)
    (l : listOfSpec Tx) : listOfSpec Tx * bool :=
  match takeOutByHash w (specItems l) with
  | Some (found, rest) =>
      ({| specSender := specSender l;
          specItems := rest;
          specTotalBytes := specTotalBytes l - estimateTxSize (Tx_ found);
          specTotalGas := specTotalGas l - estimateTxGas (Tx_ found);
          specTotalFee := specTotalFee l - estimateTxFee (Tx_ found) |}, true)
  | None => (l, false)
  end.

Definition specIsEmpty {Tx} (l : listOfSpec Tx) : bool :=
  bool_decide (length (specItems l) = 0%nat).

#[global] Instance listFromSpec `{TransactionHandler Tx}
    : ListForSender Tx (listOfSpec Tx) (bool * list bytes) := {
  newList := newListOfSpec;
  listAddTx := specAddTx;
  listRemoveTx := specRemoveTx;
  listIsEmpty := specIsEmpty
}.

End TxListBySenderMap.

(** ** Concrete transactions, for the examples *)
Module Sample.

(** A transaction at address [at_], with what the handle reads from it. *)
Record SampleTx := mkTx {
  at_ : nat;
  nonce : Z;
  from : string;
  size : Z;
  gas : Z;
  fee : Z
}.

#[global] Instance SampleTx_eq_dec : EqDecision SampleTx.
Proof. solve_decision. Defined.

#[global] Instance SampleTx_handler : TransactionHandler SampleTx := {
  GetNonce := nonce;
  GetSndAddr := from;
  estimateTxSize := size;
  estimateTxGas := gas;
  estimateTxFee := fee
}.

Definition hashA : bytes := [Byte.x0a].
Definition hashB : bytes := [Byte.x0b].
Definition hashC : bytes := [Byte.x0c].

Definition txA : SampleTx := mkTx 1 5 "alice" 100 50000 7.
Definition txB : SampleTx := mkTx 2 5 "alice" 120 60000 9.
Definition txC : SampleTx := mkTx 3 3 "alice" 90 50000 5.
Definition txD : SampleTx := mkTx 4 1 "bob" 80 50000 4.

(** The transaction of [txA] once more, behind another handle: the same
  data, and so the same hash, at another address. *)
Definition twinA : SampleTx := mkTx 9 5 "alice" 100 50000 7.

Definition empty : TxListForSender.txListForSender SampleTx :=
  TxListForSender.newTxListForSender "alice".

(** The list after [AddTx(hashA, txA)]. *)
Definition oneTx : TxListForSender.txListForSender SampleTx :=
  TxListForSender.AddTx hashA txA empty.

(** The list after the three transactions were added, [txC] last. *)
Definition threeTxs : TxListForSender.txListForSender SampleTx :=
  TxListForSender.AddTx hashC txC
    (TxListForSender.AddTx hashB txB oneTx).

(** A destination of [n] nil handlers and one of [n] nil hashes. *)
Definition buffer (n : nat) : list (option SampleTx) := replicate n None.
Definition hashBuffer (n : nat) : list bytes := replicate n [].

(** A call of [copyBatchTo] with fresh buffers of two slots. *)
Definition batchOfTwo : TxListForSender.batchCall SampleTx :=
  TxListForSender.mkCall (buffer 2) (hashBuffer 2) 2.

(** Calls on the map of the lists: two senders, then a removal. *)
Definition mapOps : list (TxListBySenderMap.MapOp SampleTx) :=
  [TxListBySenderMap.MapAddTx (TxListBySenderMap.mkWrapped txA hashA);
   TxListBySenderMap.MapAddTx (TxListBySenderMap.mkWrapped txD hashC);
   TxListBySenderMap.MapAddTx (TxListBySenderMap.mkWrapped txB hashB);
   TxListBySenderMap.MapRemoveTx (TxListBySenderMap.mkWrapped txD hashC)].

(** Two callers of [addTx]: both miss on the first lookup; caller 1 takes
  the mutex, creates the list and releases the mutex; caller 0 then takes
  the mutex and finds the list; both call [AddTx]. *)
Definition raceSchedule : list nat := [0; 1; 1; 1; 1; 1; 1; 1; 0; 0; 0; 0; 1]%nat.

(** The list of the three transactions with the cursor on its first entry,
  as a call of [copyBatchTo] with reset and a batch size of 0 leaves it. *)
Definition sweeping : TxListForSender.txListForSender SampleTx :=
  TxListForSender.resetCursor true threeTxs.

(** The first entry of [threeTxs]: [txC], which was added last. *)
Definition entryC : Element (TxListForSender.txListForSenderNode SampleTx) :=
  mkElement 2 (TxListForSender.mkNode hashC txC).

End Sample.

(** ** Concurrent callers of [addTx] for one new sender

  Goroutines that call [addTx] with transactions of the same sender, one
  statement of [getOrAddListForSender] at a time, in any order.  What they
  share is the map (its index, whose methods are synchronised and take
  effect at once, and its atomic counter) and the mutex of the map; a list
  is known by its address, the number of lists created before it. *)
Module LazyCreation.
Import TxListBySenderMap.

(** Where a caller stands in [addTx]. *)
Inductive Pc :=
  | AtLookup            (* before the first [getListForSender], unlocked *)
  | AtLock              (* missed; before [txMap.mutex.Lock()] *)
  | AtRecheck           (* holds the mutex; before the second lookup *)
  | AtNew               (* missed again; before [newTxListForSender] *)
  | AtSet (l : nat)     (* before [backingMap.Set(listForSender)] *)
  | AtIncrement (l : nat) (* before [counter.Increment()] *)
  | AtUnlock (l : nat)  (* before the deferred [Unlock] *)
  | AtAddTx (l : nat)   (* [getOrAddListForSender] returned [l] *)
  | Finished (l : nat). (* [l.AddTx(tx)] was called *)

#[global] Instance Pc_eq_dec : EqDecision Pc.
Proof. solve_decision. Defined.

Record World := mkWorld {
  shared : txListBySenderMap nat;
  mutex : option nat;     (* the caller that holds the mutex, if any *)
  created : nat;          (* how many lists were created *)
  callers : list Pc
}.

(** [n] callers about to start on a new map. *)
Definition initial (n : nat) : World :=
  {| shared := newTxListBySenderMap; mutex := None; created := 0;
     callers := replicate n AtLookup |}.

Definition moveTo (i : nat) (pc : Pc) (w : World) : World :=
  {| shared := shared w; mutex := mutex w; created := created w;
     callers := <[i := pc]> (callers w) |}.

Definition setMutex (holder : option nat) (w : World) : World :=
  {| shared := shared w; mutex := holder; created := created w;
     callers := callers w |}.

Definition setShared (txMap : txListBySenderMap nat) (w : World) : World :=
  {| shared := txMap; mutex := mutex w; created := created w;
     callers := callers w |}.

Definition allocList (w : World) : World :=
  {| shared := shared w; mutex := mutex w; created := S (created w);
     callers := callers w |}.

(** The next statement of caller [i]; [None] when the caller is blocked on
  the mutex, has finished or does not exist. *)
Definition stepCaller (sender : string) (i : nat) (w : World) : option World :=
  pc ← callers w !! i;
  match pc with
  | AtLookup =>
      match getListForSender sender (shared w) with
      | Some l => Some (moveTo i (AtAddTx l) w)
      | None => Some (moveTo i AtLock w)
      end
  | AtLock =>
      match mutex w with
      | None => Some (moveTo i AtRecheck (setMutex (Some i) w))
      | Some _ => None
      end
  | AtRecheck =>
      match getListForSender sender (shared w) with
      | Some l => Some (moveTo i (AtUnlock l) w)
      | None => Some (moveTo i AtNew w)
      end
  | AtNew => Some (moveTo i (AtSet (created w)) (allocList w))
  | AtSet l =>
      Some (moveTo i (AtIncrement l)
              (setShared {| backingMap := BucketSortedMap.SetItem sender l
                                            (backingMap (shared w));
                            counter := counter (shared w) |} w))
  | AtIncrement l =>
      Some (moveTo i (AtUnlock l)
              (setShared {| backingMap := backingMap (shared w);
                            counter := AtomicCounter.Increment (counter (shared w)) |} w))
  | AtUnlock l => Some (moveTo i (AtAddTx l) (setMutex None w))
  | AtAddTx l => Some (moveTo i (Finished l) w)
  | Finished _ => None
  end.

(** An execution: the callers take their steps in the order of the
  schedule; [None] when the schedule names a caller that cannot step. *)
Fixpoint exec (sender : string) (schedule : list nat) (w : World) : option World :=
  match schedule with
  | [] => Some w
  | i :: rest => w' ← stepCaller sender i w; exec sender rest w'
  end.

Definition isFinished (pc : Pc) : bool :=
  match pc with Finished _ => true | _ => false end.

(** Every caller has returned from [addTx]. *)
Definition allFinished (w : World) : bool := forallb isFinished (callers w).

(** The statements a caller has at most left. *)
Definition stepsLeft (pc : Pc) : nat :=
  match pc with
  | AtLookup => 8 | AtLock => 7 | AtRecheck => 6 | AtNew => 5 | AtSet _ => 4
  | AtIncrement _ => 3 | AtUnlock _ => 2 | AtAddTx _ => 1 | Finished _ => 0
  end.

Definition workLeft (w : World) : nat :=
  foldr (λ pc acc, (stepsLeft pc + acc)%nat) 0%nat (callers w).

(** The statements between [Lock] and [Unlock]. *)
Definition critical (pc : Pc) : bool :=
  match pc with
  | AtRecheck | AtNew | AtSet _ | AtIncrement _ | AtUnlock _ => true
  | _ => false
  end.

(** No list for the sender yet, or the one list, published and counted. *)
Definition settled (sender : string) (w : World) : Prop :=
  (backingMap (shared w) = ∅ ∧ created w = 0%nat ∧ counter (shared w) = 0)
  ∨ (backingMap (shared w) = {[sender := 0%nat]} ∧ created w = 1%nat
     ∧ counter (shared w) = 1).

(** What holds of the world when a caller stands at [pc]. *)
Definition pcInv (sender : string) (w : World) (pc : Pc) : Prop :=
  match pc with
  | AtLookup | AtLock => True
  | AtRecheck => settled sender w
  | AtNew =>
      backingMap (shared w) = ∅ ∧ created w = 0%nat ∧ counter (shared w) = 0
  | AtSet l =>
      backingMap (shared w) = ∅ ∧ created w = 1%nat ∧ counter (shared w) = 0
      ∧ l = 0%nat
  | AtIncrement l =>
      backingMap (shared w) = {[sender := 0%nat]} ∧ created w = 1%nat
      ∧ counter (shared w) = 0 ∧ l = 0%nat
  | AtUnlock l =>
      backingMap (shared w) = {[sender := 0%nat]} ∧ created w = 1%nat
      ∧ counter (shared w) = 1 ∧ l = 0%nat
  | AtAddTx l | Finished l =>
      backingMap (shared w) = {[sender := 0%nat]} ∧ created w = 1%nat ∧ l = 0%nat
  end.

(** The invariant of the executions. *)
Definition worldInv (sender : string) (w : World) : Prop :=
  (∀ i pc, callers w !! i = Some pc →
     pcInv sender w pc ∧ (critical pc = true ↔ mutex w = Some i))
  ∧ (mutex w = None → settled sender w)
  ∧ (∀ i, mutex w = Some i → is_Some (callers w !! i)).

End LazyCreation.

(** * Properties *)

(** ** The linked list *)
Section ContainerListFacts.
Context {A : Type}.
Implicit Types (l : list (Element A)) (e : Element A).

Lemma indexOf_middle l1 e l2 :
  eid e ∉ eid <$> l1 → indexOf (l1 ++ e :: l2) e = Some (length l1).
Proof.
  induction l1 as [|x l1 IH]; simpl; intros Hnot.
  - by rewrite decide_True.
  - apply not_elem_of_cons in Hnot as [Hne Hnot].
    rewrite decide_False by done. by rewrite IH.
Qed.

Lemma indexOf_absent l e : eid e ∉ eid <$> l → indexOf l e = None.
Proof.
  induction l as [|x l IH]; simpl; [done|]. intros Hnot.
  apply not_elem_of_cons in Hnot as [Hne Hnot].
  rewrite decide_False by done. by rewrite IH.
Qed.

Lemma distinct_middle l1 e l2 :
  distinct (l1 ++ e :: l2) →
  (eid e ∉ eid <$> l1) ∧ (eid e ∉ eid <$> l2) ∧ distinct (l1 ++ l2).
Proof.
  unfold distinct. rewrite !fmap_app, fmap_cons.
  rewrite !NoDup_app, NoDup_cons. intros (H1 & H2 & H3 & H4).
  split_and!; try done.
  - intros Hin. apply (H2 _ Hin). left.
  - intros x Hx Hx'. apply (H2 _ Hx). by right.
Qed.

Lemma distinct_snoc l e :
  distinct l → eid e ∉ eid <$> l → distinct (l ++ [e]).
Proof.
  unfold distinct. rewrite fmap_app, NoDup_app. simpl. intros Hl Hnot.
  split_and!; [done| |apply NoDup_singleton].
  intros x Hx Hx'. apply list_elem_of_singleton in Hx' as ->. done.
Qed.

Lemma distinct_insert l1 e l2 :
  distinct (l1 ++ l2) → eid e ∉ eid <$> (l1 ++ l2) → distinct (l1 ++ e :: l2).
Proof.
  unfold distinct. rewrite !fmap_app, fmap_cons, !NoDup_app, NoDup_cons.
  intros (H1 & H2 & H3) Hnot. rewrite elem_of_app in Hnot.
  split_and!; try done; [|tauto].
  intros x Hx Hx'. apply elem_of_cons in Hx' as [->|Hx']; [tauto|by eapply H2].
Qed.

Lemma Next_middle l1 e l2 :
  distinct (l1 ++ e :: l2) → Next (l1 ++ e :: l2) e = head l2.
Proof.
  intros (Hnot & _ & _)%distinct_middle. unfold Next.
  rewrite indexOf_middle by done.
  rewrite lookup_app_r by lia.
  replace (S (length l1) - length l1)%nat with 1%nat by lia.
  by destruct l2.
Qed.

Lemma Prev_last l1 e : distinct (l1 ++ [e]) → Prev (l1 ++ [e]) e = last l1.
Proof.
  intros (Hnot & _ & _)%distinct_middle. unfold Prev.
  rewrite indexOf_middle by done.
  destruct l1 as [|x l1] using rev_ind; [done|].
  rewrite length_app. simpl. replace (length l1 + 1)%nat with (S (length l1)) by lia.
  rewrite last_snoc, <- app_assoc, lookup_app_r by lia.
  by rewrite Nat.sub_diag.
Qed.

Lemma Remove_middle l1 e l2 :
  distinct (l1 ++ e :: l2) → Remove (l1 ++ e :: l2) e = l1 ++ l2.
Proof.
  intros (Hnot & _ & _)%distinct_middle. unfold Remove.
  rewrite indexOf_middle by done.
  by rewrite delete_middle.
Qed.

Lemma InsertBefore_middle l1 new mark l2 :
  distinct (l1 ++ mark :: l2) →
  InsertBefore (l1 ++ mark :: l2) new mark = l1 ++ new :: mark :: l2.
Proof.
  intros (Hnot & _ & _)%distinct_middle. unfold InsertBefore.
  rewrite indexOf_middle by done.
  by rewrite take_app_length, drop_app_length.
Qed.
End ContainerListFacts.

(** ** The counters *)
Lemma wrapInt64_small z : - 2 ^ 63 ≤ z < 2 ^ 63 → wrapInt64 z = z.
Proof. intros Hz. unfold wrapInt64. rewrite Z.mod_small; lia. Qed.

Lemma wrapInt64_idemp_add a b : wrapInt64 (wrapInt64 a + b) = wrapInt64 (a + b).
Proof.
  unfold wrapInt64. f_equal.
  replace ((a + 2 ^ 63) mod 2 ^ 64 - 2 ^ 63 + b + 2 ^ 63)
    with ((a + 2 ^ 63) mod 2 ^ 64 + b) by lia.
  replace (a + b + 2 ^ 63) with (a + 2 ^ 63 + b) by lia.
  by rewrite Zplus_mod_idemp_l.
Qed.

Lemma wrapInt64_idemp_sub a b : wrapInt64 (wrapInt64 a - b) = wrapInt64 (a - b).
Proof.
  replace (wrapInt64 a - b) with (wrapInt64 a + - b) by lia.
  by rewrite wrapInt64_idemp_add.
Qed.

(** ** The list of one sender *)
Section ListFacts.
Context `{TransactionHandler Tx}.
Import TxListForSender.
Implicit Types (l : txListForSender Tx) (xs ys els : list (Elem Tx)).
Implicit Types (e m : Elem Tx) (t : Tx).

Lemma wellFormed_new s : wellFormed (newTxListForSender (Tx:=Tx) s).
Proof. split; [apply NoDup_nil_2 | apply Forall_nil_2]. Qed.

Lemma sortedByNonce_remove xs e ys :
  sortedByNonce (xs ++ e :: ys) → sortedByNonce (xs ++ ys).
Proof.
  unfold sortedByNonce. rewrite !StronglySorted_app, StronglySorted_cons.
  intros (Hx & H1 & _ & H2). split_and!; [|done..].
  intros x1 x2 Hx1 Hx2. apply Hx; [done|by right].
Qed.

Lemma sortedByNonce_locally els : sortedByNonce els → locallySorted els.
Proof.
  intros Hs i a b Ha Hb.
  rewrite <- (take_drop_middle els i a Ha) in Hs.
  apply StronglySorted_app in Hs as (_ & _ & Hs).
  apply StronglySorted_cons in Hs as [Hall _].
  rewrite Forall_forall in Hall. apply Hall.
  apply list_elem_of_lookup. exists 0%nat.
  rewrite lookup_drop. by rewrite Nat.add_0_r.
Qed.

(** What the walk of [findTxWithLargerNonce] returns. *)
Lemma findTxWithLargerNonce_spec els nonce :
  match findTxWithLargerNonce els nonce with
  | Some m => ∃ xs ys, els = xs ++ m :: ys
                ∧ Forall (λ e, nonceOf e ≤ nonce) xs ∧ nonceOf m > nonce
  | None => Forall (λ e, nonceOf e ≤ nonce) els
  end.
Proof.
  induction els as [|x els IH]; simpl; [done|].
  destruct (decide (nonceOf x > nonce)) as [Hgt|Hle].
  - by exists [], els.
  - destruct (findTxWithLargerNonce els nonce) as [m|].
    + destruct IH as (xs & ys & -> & Hall & Hm).
      exists (x :: xs), ys. split_and!; [done| |done].
      constructor; [lia|done].
    + constructor; [lia|done].
Qed.

(** [AddTx] inserts the new element before the first element with a larger
  nonce, or at the back; the other elements stay as they are. *)
Lemma AddTx_items hash t l :
  wellFormed l →
  ∃ xs ys, items l = xs ++ ys
    ∧ items (AddTx hash t l) = xs ++ mkElement (nextElem l) (mkNode hash t) :: ys
    ∧ Forall (λ e, nonceOf e ≤ GetNonce t) xs
    ∧ match ys with [] => True | m :: _ => nonceOf m > GetNonce t end.
Proof.
  intros [Hdist _]. unfold AddTx. simpl.
  pose proof (findTxWithLargerNonce_spec (items l) (GetNonce t)) as Hfind.
  destruct (findTxWithLargerNonce (items l) (GetNonce t)) as [m|].
  - destruct Hfind as (xs & ys & Heq & Hall & Hm).
    exists xs, (m :: ys). rewrite Heq in Hdist |- *.
    by rewrite InsertBefore_middle.
  - exists (items l), []. by rewrite app_nil_r.
Qed.

Lemma AddTx_fields hash t l :
  nextElem (AddTx hash t l) = S (nextElem l)
  ∧ copyBatchIndex (AddTx hash t l) = copyBatchIndex l
  ∧ sender (AddTx hash t l) = sender l.
Proof. done. Qed.

Lemma AddTx_wellFormed hash t l : wellFormed l → wellFormed (AddTx hash t l).
Proof.
  intros Hwf. destruct (AddTx_items hash t l Hwf) as (xs & ys & Heq & Heq' & _).
  destruct Hwf as [Hdist Hlt]. rewrite Forall_forall in Hlt.
  split.
  - rewrite Heq'. apply distinct_insert; rewrite <- Heq; [done|]. simpl.
    intros (x & Hx & Hin)%list_elem_of_fmap. apply Hlt in Hin. lia.
  - rewrite Heq'. destruct (AddTx_fields hash t l) as (-> & _).
    rewrite Heq in Hlt. rewrite Forall_forall. intros x Hx.
    rewrite elem_of_app, elem_of_cons in Hx.
    destruct Hx as [Hx|[->|Hx]]; [|simpl; lia|].
    + assert (eid x < nextElem l)%nat; [|lia].
      apply Hlt. rewrite elem_of_app. by left.
    + assert (eid x < nextElem l)%nat; [|lia].
      apply Hlt. rewrite elem_of_app. by right.
Qed.

(** On a sorted list the elements behind the new one all have a larger
  nonce, and the list stays sorted. *)
Lemma AddTx_sorted_split hash t l :
  wellFormed l → sortedByNonce (items l) →
  ∃ xs ys, items l = xs ++ ys
    ∧ items (AddTx hash t l) = xs ++ mkElement (nextElem l) (mkNode hash t) :: ys
    ∧ Forall (λ e, nonceOf e ≤ GetNonce t) xs
    ∧ Forall (λ e, nonceOf e > GetNonce t) ys.
Proof.
  intros Hwf Hs. destruct (AddTx_items hash t l Hwf) as (xs & ys & Heq & Heq' & H1 & H2).
  exists xs, ys. split_and!; try done.
  destruct ys as [|m ys]; [done|].
  rewrite Heq in Hs. apply StronglySorted_app in Hs as (_ & _ & Hs).
  apply StronglySorted_cons in Hs as [Hall _].
  constructor; [done|]. eapply Forall_impl; [exact Hall|]. simpl. intros; lia.
Qed.

Lemma AddTx_sorted hash t l :
  wellFormed l → sortedByNonce (items l) → sortedByNonce (items (AddTx hash t l)).
Proof.
  intros Hwf Hs.
  destruct (AddTx_sorted_split hash t l Hwf Hs) as (xs & ys & Heq & -> & H1 & H2).
  rewrite Heq in Hs. unfold sortedByNonce in *.
  apply StronglySorted_app in Hs as (Hx & Hs1 & Hs2).
  rewrite Forall_forall in H1, H2.
  apply StronglySorted_app. split_and!; [|done|].
  - intros x1 x2 Hx1 [->|Hx2]%elem_of_cons.
    + by apply H1.
    + by apply Hx.
  - apply StronglySorted_cons. split; [|done].
    rewrite Forall_forall. intros x Hx2. apply H2 in Hx2.
    unfold nonceOf in *. simpl. lia.
Qed.

(** What the walk of [findListElementWithTx] returns. *)
Lemma findListElementWithTx_found els t m :
  findListElementWithTx els t = Some m → m ∈ els ∧ tx (Value m) = t.
Proof.
  induction els as [|x els IH]; simpl; [done|].
  destruct (decide (tx (Value x) = t)) as [Heq|Hne].
  - intros [= <-]. split; [left|done].
  - destruct (decide (nonceOf x > GetNonce t)); [done|].
    intros [Hin Hm]%IH. split; [by right|done].
Qed.

(** On a sorted list the early exit of the walk loses nothing. *)
Lemma findListElementWithTx_complete els t e :
  sortedByNonce els → e ∈ els → tx (Value e) = t →
  is_Some (findListElementWithTx els t).
Proof.
  induction els as [|x els IH]; simpl; intros Hs Hin Ht.
  - by apply elem_of_nil in Hin.
  - destruct (decide (tx (Value x) = t)) as [Heq|Hne]; [by eexists|].
    apply StronglySorted_cons in Hs as [Hall Hs].
    apply elem_of_cons in Hin as [->|Hin]; [done|].
    destruct (decide (nonceOf x > GetNonce t)) as [Hgt|Hle]; [|by apply IH].
    rewrite Forall_forall in Hall. apply Hall in Hin.
    unfold nonceOf in *. rewrite Ht in Hin. lia.
Qed.

Lemma findListElementWithTx_absent els t :
  (∀ e, e ∈ els → tx (Value e) ≠ t) → findListElementWithTx els t = None.
Proof.
  intros Hnone. destruct (findListElementWithTx els t) as [m|] eqn:Hfind; [|done].
  apply findListElementWithTx_found in Hfind as [Hin Ht]. by destruct (Hnone m Hin).
Qed.

(** [RemoveTx] takes the element it found out of the sequence. *)
Lemma RemoveTx_items t l m :
  wellFormed l → findListElementWithTx (items l) t = Some m →
  ∃ xs ys, items l = xs ++ m :: ys ∧ items (RemoveTx t l).1 = xs ++ ys.
Proof.
  intros [Hdist _] Hfind. unfold RemoveTx. rewrite Hfind. simpl.
  apply findListElementWithTx_found in Hfind as [Hin _].
  apply list_elem_of_split in Hin as (xs & ys & Heq).
  exists xs, ys. split; [done|]. rewrite Heq in Hdist |- *.
  by apply Remove_middle.
Qed.

Lemma RemoveTx_fields t l :
  nextElem (RemoveTx t l).1 = nextElem l
  ∧ copyBatchIndex (RemoveTx t l).1 = copyBatchIndex l.
Proof. unfold RemoveTx. by destruct (findListElementWithTx (items l) t). Qed.

Lemma wellFormed_remove l l' xs e ys :
  wellFormed l → items l = xs ++ e :: ys → items l' = xs ++ ys →
  nextElem l' = nextElem l → wellFormed l'.
Proof.
  intros [Hdist Hlt] Heq Heq' Hnext. unfold wellFormed.
  rewrite Heq in Hdist, Hlt. rewrite Heq', Hnext. split.
  - by apply distinct_middle in Hdist as (_ & _ & Hdist).
  - apply Forall_app in Hlt as [H1 [_ H2]%Forall_cons].
    by apply Forall_app.
Qed.

Lemma RemoveTx_wellFormed t l : wellFormed l → wellFormed (RemoveTx t l).1.
Proof.
  intros Hwf.
  destruct (findListElementWithTx (items l) t) as [m|] eqn:Hfind.
  - destruct (RemoveTx_items t l m Hwf Hfind) as (xs & ys & Heq & Heq').
    eapply wellFormed_remove; [done..|]. apply RemoveTx_fields.
  - unfold RemoveTx. by rewrite Hfind.
Qed.

Lemma RemoveTx_sorted t l :
  wellFormed l → sortedByNonce (items l) → sortedByNonce (items (RemoveTx t l).1).
Proof.
  intros Hwf Hs.
  destruct (findListElementWithTx (items l) t) as [m|] eqn:Hfind.
  - destruct (RemoveTx_items t l m Hwf Hfind) as (xs & ys & Heq & ->).
    rewrite Heq in Hs. by eapply sortedByNonce_remove.
  - unfold RemoveTx. by rewrite Hfind.
Qed.

Lemma removeFromBack_stop l removed index :
  removeFromBack 0 index (Back (items l)) l removed = (l, removed).
Proof. simpl. by destruct (Back (items l)). Qed.

(** The loop of [RemoveHighNonceTxs] takes [min todo n] elements from the
  back, and writes their hashes in the order it removes them. *)
Lemma removeFromBack_spec todo : ∀ index l (done : list bytes),
  distinct (items l) → length done = index →
  let n := length (items l) in
  let k := (todo `min` n)%nat in
  let r := removeFromBack todo index (Back (items l)) l
             (done ++ replicate todo []) in
  items r.1 = take (n - k) (items l)
  ∧ nextElem r.1 = nextElem l
  ∧ copyBatchIndex r.1 = copyBatchIndex l
  ∧ r.2 = done ++ hashesOf (reverse (drop (n - k) (items l)))
               ++ replicate (todo - k) [].
Proof.
  induction todo as [|todo IH]; intros index l done Hdist Hlen n k r.
  - subst r k. rewrite removeFromBack_stop. simpl.
    rewrite Nat.sub_0_r. subst n. rewrite take_ge, drop_ge by lia. done.
  - subst r. destruct (Back (items l)) as [e|] eqn:Hback.
    + apply last_Some in Hback as [xs Heq].
      set (l' := onRemovedListElement e (setItems (Remove (items l) e) l)).
      assert (Hxs : items l' = xs).
      { simpl. rewrite Heq. rewrite Heq in Hdist.
        rewrite (Remove_middle xs e []) by done. apply app_nil_r. }
      assert (Hprev : Prev (items l) e = Back (items l')).
      { rewrite Hxs, Heq. apply Prev_last. by rewrite <- Heq. }
      assert (Hdist' : distinct (items l')).
      { rewrite Hxs. rewrite Heq in Hdist.
        apply distinct_middle in Hdist as (_ & _ & Hdist). by rewrite app_nil_r in Hdist. }
      assert (Hstep : removeFromBack (S todo) index (Some e) l
                        (done ++ replicate (S todo) [])
                      = removeFromBack todo (S index) (Back (items l')) l'
                          ((done ++ [txHash (Value e)]) ++ replicate todo [])).
      { simpl. fold l'. rewrite Hprev. f_equal.
        rewrite insert_app_r_alt by lia. rewrite Hlen, Nat.sub_diag. simpl.
        by rewrite <- app_assoc. }
      rewrite Hstep.
      destruct (IH (S index) l' (done ++ [txHash (Value e)]) Hdist') as (H1 & H2 & H3 & H4).
      { rewrite length_app. simpl. lia. }
      subst n k. rewrite H1, H2, H3, H4, Hxs, Heq, length_app.
      change (length [e]) with 1%nat.
      replace (length xs + 1 - (S todo `min` (length xs + 1)))%nat
        with (length xs - (todo `min` length xs))%nat by lia.
      replace (S todo - (S todo `min` (length xs + 1)))%nat
        with (todo - (todo `min` length xs))%nat by lia.
      split_and!; [|done|done|].
      * by rewrite take_app_le by lia.
      * rewrite drop_app_le by lia. rewrite reverse_snoc.
        unfold hashesOf. simpl. by rewrite <- app_assoc.
    + apply last_None in Hback. subst n k. rewrite Hback.
      change (length (@nil (Elem Tx))) with 0%nat.
      rewrite Nat.min_0_r, Nat.sub_0_r. simpl. by rewrite Hback.
Qed.

Lemma RemoveHighNonceTxs_spec count l :
  wellFormed l →
  let n := length (items l) in
  let k := (count `min` n)%nat in
  items (RemoveHighNonceTxs count l).1 = take (n - k) (items l)
  ∧ nextElem (RemoveHighNonceTxs count l).1 = nextElem l
  ∧ copyBatchIndex (RemoveHighNonceTxs count l).1 = copyBatchIndex l
  ∧ (RemoveHighNonceTxs count l).2
      = hashesOf (reverse (drop (n - k) (items l))) ++ replicate (count - k) [].
Proof.
  intros [Hdist _]. apply (removeFromBack_spec count 0 l [] Hdist eq_refl).
Qed.

Lemma wellFormed_take l l' (i : nat) :
  wellFormed l → items l' = take i (items l) → nextElem l' = nextElem l →
  wellFormed l'.
Proof.
  intros [Hdist Hlt] Heq Hnext. unfold wellFormed. rewrite Heq, Hnext. split.
  - unfold distinct in *. rewrite fmap_take.
    eapply sublist_NoDup; [exact Hdist|]. apply sublist_take.
  - by apply Forall_take.
Qed.

Lemma sortedByNonce_take els (i : nat) :
  sortedByNonce els → sortedByNonce (take i els).
Proof.
  intros Hs. rewrite <- (take_drop i els) in Hs.
  by apply StronglySorted_app in Hs as (_ & Hs & _).
Qed.

Lemma RemoveHighNonceTxs_wellFormed count l :
  wellFormed l → wellFormed (RemoveHighNonceTxs count l).1.
Proof.
  intros Hwf. destruct (RemoveHighNonceTxs_spec count l Hwf) as (H1 & H2 & _).
  by eapply wellFormed_take.
Qed.

(** *** The cursor of [copyBatchTo] *)

(** The loop copies from the element it starts at until the sequence, the
  batch or the destination ends. *)
Lemma copyLoop_spec batchSize space : ∀ xs ys (c : nat) dst (dstH : list bytes),
  distinct (xs ++ ys) →
  length dst = (c + space)%nat → (c + space ≤ length dstH)%nat →
  Z.of_nat c ≤ batchSize →
  let k := (length ys `min` (space `min` Z.to_nat (batchSize - Z.of_nat c)))%nat in
  copyLoop (xs ++ ys) batchSize space (head ys) c dst dstH
  = Some (mkCopy (head (drop k ys)) (c + k)
            (take c dst ++ handlersOf (take k ys) ++ drop (c + k) dst)
            (take c dstH ++ hashesOf (take k ys) ++ drop (c + k) dstH)).
Proof.
  induction space as [|space IH]; intros xs ys c dst dstH Hdist Hlen HlenH Hc k.
  - assert (k = 0%nat) as -> by lia. rewrite Nat.add_0_r. simpl.
    rewrite !take_drop. destruct ys; simpl; [done|]. by case_decide.
  - destruct ys as [|e ys].
    + subst k. simpl. rewrite Nat.add_0_r, !take_drop. done.
    + simpl. case_decide as Hbatch.
      * assert (k = 0%nat) as -> by lia. rewrite Nat.add_0_r. simpl.
        by rewrite !take_drop.
      * rewrite decide_True by lia. rewrite Next_middle by done.
        rewrite (cons_middle e xs ys), app_assoc.
        rewrite IH; [|by rewrite <- app_assoc|rewrite length_insert; lia
                     |rewrite length_insert; lia|lia].
        assert (k = S (length ys `min` (space `min` Z.to_nat (batchSize - Z.of_nat (S c)))))
          as -> by (subst k; simpl length; lia).
        set (k' := (length ys `min` _)%nat).
        f_equal. f_equal.
        -- lia.
        -- rewrite (take_S_r _ c (Some (tx (Value e)))).
           2:{ apply list_lookup_insert_eq. lia. }
           rewrite take_insert_ge by lia. rewrite drop_insert_lt by lia.
           simpl. rewrite <- app_assoc. simpl.
           by replace (S (c + k')) with (c + S k')%nat by lia.
        -- rewrite (take_S_r _ c (txHash (Value e))).
           2:{ apply list_lookup_insert_eq. lia. }
           rewrite take_insert_ge by lia. rewrite drop_insert_lt by lia.
           simpl. rewrite <- app_assoc. simpl.
           by replace (S (c + k')) with (c + S k')%nat by lia.
Qed.

Lemma setCopyBatchIndex_same l : setCopyBatchIndex (copyBatchIndex l) l = l.
Proof. by destruct l. Qed.

(** One call without reset, with the cursor at position [p]. *)
Lemma copyBatchTo_at l (p : nat) dst (dstH : list bytes) batchSize :
  wellFormed l → cursorAt l p → 0 ≤ batchSize →
  (length dst ≤ length dstH)%nat →
  let q := (Z.to_nat batchSize `min` length dst)%nat in
  let k := (q `min` (length (items l) - p))%nat in
  ∃ r, copyBatchTo false dst dstH batchSize l
         = Some (setCopyBatchIndex (items l !! (p + k)%nat) l, r)
     ∧ items l !! (p + k)%nat = items l !! (p + q)%nat
     ∧ copied r = k
     ∧ take (copied r) (destination r) = handlersOf (take q (drop p (items l)))
     ∧ take (copied r) (destinationHashes r) = hashesOf (take q (drop p (items l))).
Proof.
  intros [Hdist _] Hcur Hbatch Hlen q k. unfold copyBatchTo, resetCursor.
  unfold cursorAt in Hcur.
  assert (Hsame : items l !! (p + k)%nat = items l !! (p + q)%nat).
  { destruct (decide (q ≤ length (items l) - p)%nat).
    - by replace k with q by lia.
    - rewrite !lookup_ge_None_2 by lia. done. }
  destruct (copyBatchIndex l) as [e|] eqn:Hidx.
  - symmetry in Hcur.
    assert (Hhead : head (drop p (items l)) = Some e).
    { by rewrite head_lookup, lookup_drop, Nat.add_0_r. }
    pose proof (copyLoop_spec batchSize (length dst) (take p (items l))
                  (drop p (items l)) 0 dst dstH) as Hloop.
    rewrite take_drop, Hhead, Z.sub_0_r, length_drop in Hloop.
    replace (((length (items l) - p) `min` (length dst `min` Z.to_nat batchSize)))%nat
      with k in Hloop by lia.
    simpl in Hloop. rewrite Hloop by (done || lia).
    simpl. eexists. split; [|split; [done|]].
    + do 2 f_equal. by rewrite head_lookup, lookup_drop, lookup_drop, Nat.add_0_r.
    + simpl. split; [done|].
      assert (Htake : take k (drop p (items l)) = take q (drop p (items l))).
      { destruct (decide (q ≤ length (items l) - p)%nat).
        - by replace k with q by lia.
        - rewrite !take_ge by (rewrite length_drop; lia). done. }
      rewrite <- Htake.
      assert (Hk : length (take k (drop p (items l))) = k).
      { rewrite length_take, length_drop. lia. }
      split.
      * rewrite take_app_length'; [done|]. unfold handlersOf. by rewrite length_fmap.
      * rewrite take_app_length'; [done|]. unfold hashesOf. by rewrite length_fmap.
  - symmetry in Hcur. apply lookup_ge_None in Hcur.
    assert (k = 0%nat) as Hk by lia.
    eexists. split; [|split; [done|]].
    + rewrite lookup_ge_None_2 by lia. rewrite <- Hidx, setCopyBatchIndex_same. done.
    + simpl. rewrite drop_ge by lia. rewrite take_nil. done.
Qed.

(** A sweep without reset, with the cursor at position [p]: the calls copy
  consecutive stretches of the sequence. *)
Lemma sweep_from calls : ∀ l (p : nat),
  wellFormed l → cursorAt l p → Forall usableCall calls →
  ∃ l', sweep false calls l
          = Some (l', handlersOf (take (totalQuota calls) (drop p (items l))),
                      hashesOf (take (totalQuota calls) (drop p (items l))))
      ∧ items l' = items l
      ∧ cursorAt l' (p + totalQuota calls).
Proof.
  induction calls as [|c calls IH]; intros l p Hwf Hcur Hall.
  - exists l. simpl. rewrite Nat.add_0_r. done.
  - apply Forall_cons in Hall as [(Hb & Hd & Hh) Hall].
    destruct (copyBatchTo_at l p (callDestination c) (callHashes c) (callBatchSize c))
      as (r & Hcopy & Hsame & Hk & Htx & Hhash); [done|done|lia|done|].
    set (l1 := setCopyBatchIndex _ l) in Hcopy.
    assert (Hwf1 : wellFormed l1) by done.
    assert (Hcur1 : cursorAt l1 (p + batchQuota c)) by done.
    destruct (IH l1 (p + batchQuota c)%nat Hwf1 Hcur1 Hall) as (l' & Hsweep & Hitems & Hcur').
    exists l'. simpl. rewrite Hcopy. simpl. rewrite Hsweep. simpl.
    split; [|split; [done|]].
    + rewrite Htx, Hhash. fold (batchQuota c).
      unfold handlersOf, hashesOf. rewrite <- !fmap_app.
      rewrite <- drop_drop, take_take_drop. done.
    + unfold cursorAt in *. rewrite Hcur', Hitems. simpl. f_equal. lia.
Qed.

(** *** Sequences of calls *)

Lemma copyBatchTo_items withReset dst (dstH : list bytes) batchSize l l' r :
  copyBatchTo withReset dst dstH batchSize l = Some (l', r) →
  items l' = items l ∧ nextElem l' = nextElem l.
Proof.
  unfold copyBatchTo, resetCursor. intros Hcopy.
  destruct withReset; simpl in Hcopy.
  - destruct (Front (items l)); simplify_option_eq; done.
  - destruct (copyBatchIndex l); simplify_option_eq; done.
Qed.

Lemma applyOp_copy_items withReset dst (dstH : list bytes) batchSize l :
  let l' := applyOp l (OpCopyBatchTo withReset dst dstH batchSize) in
  items l' = items l ∧ nextElem l' = nextElem l.
Proof.
  simpl. destruct (copyBatchTo withReset dst dstH batchSize l) as [[l' r]|] eqn:Hcopy.
  - by eapply copyBatchTo_items.
  - by destruct withReset.
Qed.

Lemma applyOp_wellFormed l op : wellFormed l → wellFormed (applyOp l op).
Proof.
  intros Hwf. destruct op as [hash t|t|count|withReset dst dstH batchSize].
  - by apply AddTx_wellFormed.
  - by apply RemoveTx_wellFormed.
  - by apply RemoveHighNonceTxs_wellFormed.
  - destruct (applyOp_copy_items withReset dst dstH batchSize l) as [Hi Hn].
    unfold wellFormed. by rewrite Hi, Hn.
Qed.

Lemma applyOp_sorted l op :
  wellFormed l → sortedByNonce (items l) → sortedByNonce (items (applyOp l op)).
Proof.
  intros Hwf Hs. destruct op as [hash t|t|count|withReset dst dstH batchSize].
  - by apply AddTx_sorted.
  - by apply RemoveTx_sorted.
  - cbn [applyOp]. destruct (RemoveHighNonceTxs_spec count l Hwf) as (-> & _).
    by apply sortedByNonce_take.
  - destruct (applyOp_copy_items withReset dst dstH batchSize l) as [Hi _].
    by rewrite Hi.
Qed.

Lemma run_snoc ops op l : run (ops ++ [op]) l = applyOp (run ops l) op.
Proof. unfold run. by rewrite foldl_app. Qed.

(** Every list that calls can build is well formed and sorted. *)
Lemma run_invariant ops s :
  wellFormed (run ops (newTxListForSender (Tx:=Tx) s))
  ∧ sortedByNonce (items (run ops (newTxListForSender (Tx:=Tx) s))).
Proof.
  induction ops as [|op ops [IHwf IHs]] using rev_ind.
  - split; [apply wellFormed_new|constructor].
  - rewrite run_snoc. split; [by apply applyOp_wellFormed|by apply applyOp_sorted].
Qed.

Lemma applyOp_cursor_unset l op :
  wellFormed l → withoutReset op = true → copyBatchIndex l = None →
  copyBatchIndex (applyOp l op) = None.
Proof.
  intros Hwf Hop Hnil. destruct op as [hash t|t|count|withReset dst dstH batchSize].
  - exact Hnil.
  - cbn [applyOp]. by destruct (RemoveTx_fields t l) as (_ & ->).
  - cbn [applyOp].
    by destruct (RemoveHighNonceTxs_spec count l Hwf) as (_ & _ & -> & _).
  - destruct withReset; [done|]. simpl. unfold copyBatchTo, resetCursor.
    by rewrite Hnil.
Qed.

(** *** The running totals *)

Lemma sumZ_app {A} (f : A → Z) (xs ys : list A) :
  sumZ f (xs ++ ys) = sumZ f xs + sumZ f ys.
Proof. unfold sumZ. induction xs as [|x xs IH]; simpl; lia. Qed.

Lemma bytesExact_remove l l' xs e ys :
  bytesExact l → items l = xs ++ e :: ys → items l' = xs ++ ys →
  totalBytes l' = AtomicCounter.Subtract (totalBytes l) (estimateTxSize (tx (Value e))) →
  bytesExact l'.
Proof.
  unfold bytesExact, AtomicCounter.Subtract, sumSize. intros -> -> -> ->.
  rewrite wrapInt64_idemp_sub, !sumZ_app. f_equal. simpl. lia.
Qed.

Lemma AddTx_bytesExact hash t l :
  wellFormed l → bytesExact l → bytesExact (AddTx hash t l).
Proof.
  intros Hwf Hb. destruct (AddTx_items hash t l Hwf) as (xs & ys & Heq & Heq' & _).
  unfold bytesExact, sumSize in *. rewrite Heq'.
  change (totalBytes (AddTx hash t l))
    with (AtomicCounter.Add (totalBytes l) (estimateTxSize t)).
  unfold AtomicCounter.Add. rewrite Hb, Heq, wrapInt64_idemp_add, !sumZ_app.
  f_equal. simpl. lia.
Qed.

Lemma RemoveTx_bytesExact t l :
  wellFormed l → bytesExact l → bytesExact (RemoveTx t l).1.
Proof.
  intros Hwf Hb.
  destruct (findListElementWithTx (items l) t) as [m|] eqn:Hfind.
  - destruct (RemoveTx_items t l m Hwf Hfind) as (xs & ys & Heq & Heq').
    eapply bytesExact_remove; [done..|]. unfold RemoveTx. by rewrite Hfind.
  - unfold RemoveTx. by rewrite Hfind.
Qed.

Lemma removeFromBack_bytesExact todo : ∀ index l (removed : list bytes),
  distinct (items l) → bytesExact l →
  bytesExact (removeFromBack todo index (Back (items l)) l removed).1.
Proof.
  induction todo as [|todo IH]; intros index l removed Hdist Hb.
  - by rewrite removeFromBack_stop.
  - destruct (Back (items l)) as [e|] eqn:Hback; [|done].
    apply last_Some in Hback as [xs Heq].
    set (l' := onRemovedListElement e (setItems (Remove (items l) e) l)).
    assert (Hxs : items l' = xs).
    { simpl. rewrite Heq. rewrite Heq in Hdist.
      rewrite (Remove_middle xs e []) by done. apply app_nil_r. }
    assert (Hprev : Prev (items l) e = Back (items l')).
    { rewrite Hxs, Heq. apply Prev_last. by rewrite <- Heq. }
    simpl. fold l'. rewrite Hprev. apply IH.
    + rewrite Hxs. rewrite Heq in Hdist.
      apply distinct_middle in Hdist as (_ & _ & Hdist). by rewrite app_nil_r in Hdist.
    + eapply (bytesExact_remove l l' xs e []); [done|done| |done].
      by rewrite app_nil_r.
Qed.

(** Whatever calls a new list has received, [totalBytes] is exact. *)
Lemma run_bytesExact ops s :
  bytesExact (run ops (newTxListForSender (Tx:=Tx) s)).
Proof.
  induction ops as [|op ops IH] using rev_ind; [done|].
  rewrite run_snoc. destruct (run_invariant ops s) as [Hwf _].
  set (l := run ops (newTxListForSender s)) in *.
  destruct op as [hash t|t|count|withReset dst dstH batchSize].
  - by apply AddTx_bytesExact.
  - by apply RemoveTx_bytesExact.
  - apply removeFromBack_bytesExact; [by destruct Hwf|done].
  - simpl. unfold copyBatchTo, resetCursor.
    destruct withReset; simpl.
    + destruct (Front (items l)); simpl; [|done].
      destruct (copyLoop _ _ _ _ _ _ _); done.
    + destruct (copyBatchIndex l); simpl; [|done].
      destruct (copyLoop _ _ _ _ _ _ _); done.
Qed.

Lemma StronglySorted_reverse_flip {A} (R : relation A) (els : list A) :
  StronglySorted R els → StronglySorted (flip R) (reverse els).
Proof.
  induction 1 as [|x els Hs IH Hall]; [constructor|].
  rewrite reverse_cons. apply StronglySorted_app. split_and!; [|done|].
  - intros x1 x2 Hx1 Hx2. rewrite elem_of_reverse in Hx1.
    apply list_elem_of_singleton in Hx2. subst x2.
    rewrite Forall_forall in Hall. unfold flip. by apply Hall.
  - repeat constructor.
Qed.

(** *** The claims about one list *)

(** C2. Whatever calls of [AddTx], [RemoveTx], [RemoveHighNonceTxs] (and
  [copyBatchTo]) a new list has received, its sequence is non-decreasing by
  nonce; and [AddTx] puts the new entry behind all entries whose nonce is
  not larger and in front of all entries whose nonce is larger, that is
  immediately before the first entry with a larger nonce, or at the back
  when there is none. *)
Theorem C2_sorted_after_every_operation (s : string) (ops : list (Op Tx)) :
  let l := run ops (newTxListForSender s) in
  sortedByNonce (items l)
  ∧ locallySorted (items l)
  ∧ ∀ hash t, ∃ xs ys,
      items l = xs ++ ys
      ∧ items (AddTx hash t l) = xs ++ mkElement (nextElem l) (mkNode hash t) :: ys
      ∧ Forall (λ e, nonceOf e ≤ GetNonce t) xs
      ∧ Forall (λ e, nonceOf e > GetNonce t) ys.
Proof.
  intros l. destruct (run_invariant ops s) as [Hwf Hs]. fold l in Hwf, Hs.
  split_and!; [done|by apply sortedByNonce_locally|].
  intros hash t. by apply AddTx_sorted_split.
Qed.

(** C3. On a sorted list of [n] entries [RemoveHighNonceTxs k] removes
  [min k n] entries, the last ones of the sequence: every entry that stays
  has a nonce not larger than any entry that goes, and the sequence that
  stays is sorted. *)
Theorem C3_tail_eviction (l : txListForSender Tx) (k : nat) :
  wellFormed l → sortedByNonce (items l) →
  let n := length (items l) in
  let m := (k `min` n)%nat in
  let kept := items (RemoveHighNonceTxs k l).1 in
  let gone := drop (n - m) (items l) in
  items l = kept ++ gone
  ∧ length gone = m
  ∧ length kept = (n - m)%nat
  ∧ (∀ a b, a ∈ kept → b ∈ gone → nonceOf a ≤ nonceOf b)
  ∧ sortedByNonce kept.
Proof.
  intros Hwf Hs n m kept gone.
  destruct (RemoveHighNonceTxs_spec k l Hwf) as (Hkept & _).
  fold n m in Hkept. subst kept gone. rewrite Hkept.
  split_and!.
  - by rewrite take_drop.
  - rewrite length_drop. lia.
  - rewrite length_take. lia.
  - rewrite <- (take_drop (n - m) (items l)) in Hs.
    by apply StronglySorted_app in Hs as (Hx & _).
  - by apply sortedByNonce_take.
Qed.

(** C4, amended. [RemoveHighNonceTxs k] returns a slice of [k] entries: the
  hashes of the [min k n] removed entries, in the order of their removal
  (from the back of the sequence, so by non-increasing nonce on a sorted
  list), followed by [k - min k n] nil entries; when [n < k] all [n]
  entries are removed. *)
Theorem C4_removed_hashes_padded (l : txListForSender Tx) (k : nat) :
  wellFormed l → sortedByNonce (items l) →
  let n := length (items l) in
  let m := (k `min` n)%nat in
  let gone := reverse (drop (n - m) (items l)) in
  (RemoveHighNonceTxs k l).2 = hashesOf gone ++ replicate (k - m) []
  ∧ length (RemoveHighNonceTxs k l).2 = k
  ∧ length gone = m
  ∧ StronglySorted (λ a b, nonceOf b ≤ nonceOf a) gone
  ∧ ((n < k)%nat → items (RemoveHighNonceTxs k l).1 = [] ∧ gone = reverse (items l)).
Proof.
  intros Hwf Hs n m gone.
  destruct (RemoveHighNonceTxs_spec k l Hwf) as (Hkept & _ & _ & Hres).
  fold n m in Hkept, Hres. fold gone in Hres.
  assert (Hgone : length gone = m).
  { subst gone. rewrite length_reverse, length_drop. lia. }
  split_and!; [done| |done| |].
  - rewrite Hres, length_app, length_replicate. unfold hashesOf.
    rewrite length_fmap, Hgone. lia.
  - subst gone. apply (StronglySorted_reverse_flip (λ a b, nonceOf a ≤ nonceOf b)).
    rewrite <- (take_drop (n - m) (items l)) in Hs.
    by apply StronglySorted_app in Hs as (_ & _ & Hs).
  - intros Hlt. rewrite Hkept. subst gone.
    replace (n - m)%nat with 0%nat by lia. by rewrite take_0, drop_0.
Qed.

(** C5, amended. On a sorted list [RemoveTx] returns true exactly when an
  entry holds the very handler it was given ([value.tx == txToFind]; the
  hashes of the entries are not compared): the walk, which stops behind
  the first entry with a larger nonce, misses no such entry.  When there
  is none it returns false and the list, its sequence and its totals, is
  as before. *)
Theorem C5_remove_finds_present (l : txListForSender Tx) (t : Tx) :
  sortedByNonce (items l) →
  ((RemoveTx t l).2 = true ↔ ∃ e, e ∈ items l ∧ tx (Value e) = t)
  ∧ ((∀ e, e ∈ items l → tx (Value e) ≠ t) → RemoveTx t l = (l, false)).
Proof.
  intros Hs. split.
  - unfold RemoveTx. split.
    + destruct (findListElementWithTx (items l) t) as [m|] eqn:Hfind; [|done].
      intros _. exists m. by apply findListElementWithTx_found.
    + intros (e & Hin & Ht).
      destruct (findListElementWithTx_complete (items l) t e Hs Hin Ht) as [m ->].
      done.
  - intros Hnone. unfold RemoveTx.
    by rewrite findListElementWithTx_absent.
Qed.

Lemma sameNonce_larger t els :
  Forall (λ e, nonceOf e > GetNonce t) els → sameNonce t els = [].
Proof.
  unfold sameNonce. induction 1 as [|x els Hx _ IH]; [done|].
  rewrite filter_cons_False by lia. done.
Qed.

(** C6, amended. [AddTx] of a transaction whose nonce is the nonce of an
  entry of the (sorted) list inserts it: the entry that was there stays,
  the new entry comes behind it and behind every other entry of that nonce,
  and the list has one more entry of that nonce than before. *)
Theorem C6_equal_nonce_is_inserted (l : txListForSender Tx) (hash : bytes)
    (t : Tx) (e : Elem Tx) :
  wellFormed l → sortedByNonce (items l) →
  e ∈ items l → nonceOf e = GetNonce t →
  let new := mkElement (nextElem l) (mkNode hash t) in
  (∃ xs ys, items l = xs ++ ys
      ∧ items (AddTx hash t l) = xs ++ new :: ys
      ∧ e ∈ xs
      ∧ sameNonce t ys = [])
  ∧ new ≠ e
  ∧ length (sameNonce t (items (AddTx hash t l)))
      = S (length (sameNonce t (items l)))
  ∧ (2 ≤ length (sameNonce t (items (AddTx hash t l))))%nat.
Proof.
  intros Hwf Hs Hin He new.
  destruct (AddTx_sorted_split hash t l Hwf Hs) as (xs & ys & Heq & Heq' & Hxs & Hys).
  fold new in Heq'.
  assert (Hnone : sameNonce t ys = []) by by apply sameNonce_larger.
  assert (Hexs : e ∈ xs).
  { rewrite Heq in Hin. apply elem_of_app in Hin as [Hin|Hin]; [done|].
    rewrite Forall_forall in Hys. apply Hys in Hin. lia. }
  assert (Hcount : sameNonce t (items (AddTx hash t l))
                   = sameNonce t xs ++ new :: sameNonce t ys).
  { rewrite Heq'. unfold sameNonce. rewrite filter_app.
    by rewrite filter_cons_True by done. }
  split_and!.
  - by exists xs, ys.
  - intros Hnew. destruct Hwf as [_ Hlt]. rewrite Forall_forall in Hlt.
    apply Hlt in Hin. rewrite <- Hnew in Hin. simpl in Hin. lia.
  - rewrite Hcount, Heq. unfold sameNonce at 3. rewrite filter_app.
    rewrite !length_app. simpl. fold (sameNonce t xs) (sameNonce t ys). lia.
  - rewrite Hcount, length_app. simpl.
    assert (e ∈ sameNonce t xs) as Hsame by by apply list_elem_of_filter.
    destruct (sameNonce t xs); [by apply elem_of_nil in Hsame|]. simpl. lia.
Qed.

Lemma totalQuota_ge (calls : list (batchCall Tx)) :
  Forall usableCall calls → (length calls ≤ totalQuota calls)%nat.
Proof.
  induction 1 as [|c calls (Hb & Hd & _) _ IH]; simpl; [done|].
  unfold batchQuota. lia.
Qed.

(** C7. A sweep over a list that is not mutated meanwhile, one call with
  reset and then calls without, each with a positive batch size and a
  non-empty destination: a call with the cursor at position [p] copies the
  [min(batchSize, len(destination), n - p)] entries from position [p] on
  and moves the cursor behind them; the entries copied by all the calls
  together are the first entries of the sequence, as many as the calls'
  quotas add up to, in the order of the sequence; and once there are at
  least as many calls as entries, they are the whole sequence, each entry
  once, and the cursor is nil. *)
Theorem C7_resumable_cursor (l : txListForSender Tx) (first : batchCall Tx)
    (rest : list (batchCall Tx)) :
  wellFormed l → Forall usableCall (first :: rest) →
  let calls := first :: rest in
  (∀ (p : nat) c, cursorAt l p → usableCall c →
     let k := (batchQuota c `min` (length (items l) - p))%nat in
     ∃ l1 r, copyBatchTo false (callDestination c) (callHashes c) (callBatchSize c) l
               = Some (l1, r)
       ∧ items l1 = items l ∧ cursorAt l1 (p + k)
       ∧ copied r = k
       ∧ take k (destination r) = handlersOf (take k (drop p (items l)))
       ∧ take k (destinationHashes r) = hashesOf (take k (drop p (items l))))
  ∧ (∃ l', sweep true calls l
             = Some (l', handlersOf (take (totalQuota calls) (items l)),
                         hashesOf (take (totalQuota calls) (items l)))
       ∧ items l' = items l ∧ cursorAt l' (totalQuota calls))
  ∧ ((length (items l) ≤ length calls)%nat →
     ∃ l', sweep true calls l = Some (l', handlersOf (items l), hashesOf (items l))
       ∧ items l' = items l ∧ copyBatchIndex l' = None).
Proof.
  intros Hwf Hall calls.
  set (l0 := setCopyBatchIndex (Front (items l)) l).
  assert (Hreset : sweep true calls l = sweep false calls l0) by reflexivity.
  assert (Hwf0 : wellFormed l0) by done.
  assert (Hcur0 : cursorAt l0 0).
  { unfold cursorAt. simpl. apply head_lookup. }
  destruct (sweep_from calls l0 0 Hwf0 Hcur0 Hall) as (l' & Hsweep & Hitems & Hcur).
  rewrite drop_0 in Hsweep. simpl in Hcur.
  change (items l0) with (items l) in Hsweep, Hitems.
  split_and!.
  - intros p c Hp (Hb & Hd & Hh) k.
    destruct (copyBatchTo_at l p (callDestination c) (callHashes c) (callBatchSize c))
      as (r & Hcopy & _ & Hk & Htx & Hhash); [done|done|lia|done|].
    fold (batchQuota c) in Hcopy, Hk, Htx, Hhash. fold k in Hcopy, Hk.
    assert (Htake : take k (drop p (items l)) = take (batchQuota c) (drop p (items l))).
    { destruct (decide (batchQuota c ≤ length (items l) - p)%nat).
      - by replace k with (batchQuota c) by lia.
      - rewrite !take_ge by (rewrite length_drop; lia). done. }
    eexists _, r. split; [exact Hcopy|]. rewrite Htake, <- Htx, <- Hhash, Hk.
    split_and!; done.
  - exists l'. by rewrite Hreset.
  - intros Hlen. exists l'. rewrite Hreset, Hsweep.
    pose proof (totalQuota_ge calls Hall) as Hge.
    rewrite take_ge by lia. split_and!; [done..|].
    unfold cursorAt in Hcur. rewrite Hcur, Hitems.
    apply lookup_ge_None_2. simpl in Hge, Hlen |- *. lia.
Qed.

(** C10. As long as [copyBatchTo] was never called with reset on a list,
  its cursor is nil, and a call without reset copies nothing and returns 0,
  whatever the list holds: the destination slices and the list are as
  before. *)
Theorem C10_copy_without_reset_copies_nothing (s : string) (ops : list (Op Tx))
    (dst : list (option Tx)) (dstH : list bytes) (batchSize : Z) :
  Forall (λ op, withoutReset op = true) ops →
  let l := run ops (newTxListForSender s) in
  copyBatchIndex l = None
  ∧ copyBatchTo false dst dstH batchSize l = Some (l, mkCopy None 0 dst dstH).
Proof.
  intros Hops l.
  assert (Hnil : copyBatchIndex l = None).
  { subst l. induction ops as [|op ops IH] using rev_ind; [done|].
    apply Forall_app in Hops as [Hops [Hop _]%Forall_cons].
    rewrite run_snoc. apply applyOp_cursor_unset; [|done|by apply IH].
    apply run_invariant. }
  split; [done|]. unfold copyBatchTo, resetCursor. by rewrite Hnil.
Qed.

End ListFacts.

(** ** The map of the lists by sender *)
Section MapFacts.
Context `{TransactionHandler Tx} `{!TxListBySenderMap.ListForSender Tx L R}.
Import TxListBySenderMap.
Implicit Types (txMap : txListBySenderMap L) (w : WrappedTransaction Tx).

Lemma counted_new : counted (newTxListBySenderMap (L:=L)).
Proof. unfold counted, countSenders. simpl. by rewrite map_size_empty. Qed.

Lemma clear_counted txMap : counted (clear txMap).
Proof. apply counted_new. Qed.

Lemma updateList_counted sender (listForSender : L) txMap :
  is_Some (backingMap txMap !! sender) → counted txMap →
  counted (updateList sender listForSender txMap).
Proof.
  unfold counted, countSenders. simpl. intros Hin ->.
  by rewrite map_size_insert_Some.
Qed.

Lemma addSender_counted sender txMap :
  backingMap txMap !! sender = None → counted txMap →
  counted (addSender sender txMap).1
  ∧ backingMap (addSender sender txMap).1 !! sender = Some (addSender sender txMap).2.
Proof.
  unfold counted, countSenders. simpl. intros Hnone ->. split.
  - unfold BucketSortedMap.SetItem, AtomicCounter.Increment.
    rewrite map_size_insert_None by done. rewrite wrapInt64_idemp_add.
    f_equal. lia.
  - apply lookup_insert_eq.
Qed.

Lemma getOrAddListForSender_counted sender txMap :
  counted txMap →
  counted (getOrAddListForSender sender txMap).1
  ∧ backingMap (getOrAddListForSender sender txMap).1 !! sender
      = Some (getOrAddListForSender sender txMap).2.
Proof.
  intros Hc. unfold getOrAddListForSender, getListForSender, BucketSortedMap.Get.
  destruct (backingMap txMap !! sender) as [listForSender|] eqn:Hget; [done|].
  by apply addSender_counted.
Qed.

Lemma removeSender_counted sender txMap :
  counted txMap → counted (removeSender sender txMap).1.
Proof.
  unfold removeSender, BucketSortedMap.Has. intros Hc.
  case_bool_decide as Hin; [|done].
  unfold counted, countSenders in *. simpl.
  unfold BucketSortedMap.Remove, AtomicCounter.Decrement.
  rewrite Hc, wrapInt64_idemp_sub, map_size_delete_Some by done.
  f_equal. destruct (size (backingMap txMap)) eqn:Hsize; [|simpl; lia].
  apply map_size_empty_iff in Hsize. rewrite Hsize, lookup_empty in Hin.
  by destruct Hin.
Qed.

Lemma RemoveSendersBulk_counted senders : ∀ txMap numRemoved,
  counted txMap → counted (RemoveSendersBulk senders txMap numRemoved).1.
Proof.
  induction senders as [|senderKey senders IH]; intros txMap numRemoved Hc; [done|].
  simpl. pose proof (removeSender_counted senderKey txMap Hc) as Hc1.
  destruct (removeSender senderKey txMap) as [txMap1 removed]. by apply IH.
Qed.

Lemma addTx_counted w txMap : counted txMap → counted (addTx w txMap).1.
Proof.
  intros Hc. unfold addTx.
  destruct (getOrAddListForSender_counted (GetSndAddr (Tx_ w)) txMap Hc) as [Hc1 Hin].
  destruct (getOrAddListForSender (GetSndAddr (Tx_ w)) txMap) as [txMap1 listForSender].
  destruct (listAddTx w listForSender) as [listForSender' report]. simpl in *.
  apply updateList_counted; [by eexists|done].
Qed.

Lemma removeTx_counted w txMap : counted txMap → counted (removeTx w txMap).1.
Proof.
  intros Hc. unfold removeTx, getListForSender, BucketSortedMap.Get.
  destruct (backingMap txMap !! GetSndAddr (Tx_ w)) as [listForSender|] eqn:Hget;
    [|done].
  destruct (listRemoveTx w listForSender) as [listForSender' isFound]. simpl.
  assert (counted (updateList (GetSndAddr (Tx_ w)) listForSender' txMap)) as Hc1.
  { apply updateList_counted; [by eexists|done]. }
  destruct (listIsEmpty listForSender'); [|done].
  by apply removeSender_counted.
Qed.

Lemma runMap_counted (ops : list (MapOp Tx)) :
  counted (runMap ops (newTxListBySenderMap (L:=L))).
Proof.
  induction ops as [|op ops IH] using rev_ind; [apply counted_new|].
  unfold runMap. rewrite foldl_app. simpl. fold (runMap ops (newTxListBySenderMap (L:=L))).
  destruct op as [w|w|senders|]; simpl.
  - by apply addTx_counted.
  - by apply removeTx_counted.
  - by apply RemoveSendersBulk_counted.
  - apply clear_counted.
Qed.

(** C8. After any calls of [addTx], [removeTx], [RemoveSendersBulk] and
  [clear] on a new map, the counter is the number of senders present in
  the index (as long as a 64-bit counter can hold that number; in general
  the counter is that number wrapped around). *)
Theorem C8_counter_counts_senders (ops : list (MapOp Tx)) :
  let txMap := runMap ops (newTxListBySenderMap (L:=L)) in
  countSenders txMap < 2 ^ 63 →
  counter txMap = countSenders txMap
  ∧ counter txMap = Z.of_nat (size (dom (backingMap txMap))).
Proof.
  intros txMap Hsmall. pose proof (runMap_counted ops) as Hc.
  fold txMap in Hc. unfold counted in Hc.
  rewrite wrapInt64_small in Hc by (unfold countSenders in *; lia).
  split; [done|]. by rewrite size_dom.
Qed.

End MapFacts.

(** ** Concurrent callers of [addTx] *)
Section LazyCreationFacts.
Import TxListBySenderMap LazyCreation.
Variable sender : string.
Implicit Types (w : World) (pc : Pc) (i j : nat).

Lemma initial_inv n : worldInv sender (initial n).
Proof.
  split_and!.
  - intros i pc [-> _]%lookup_replicate_1. done.
  - intros _. by left.
  - done.
Qed.

(** A step of caller [i] from [pc] to [pc'], on a world [w1] that has the
  callers of [w], keeps the invariant when it keeps what holds for the
  other callers. *)
Lemma worldInv_move i pc pc' w w1 :
  worldInv sender w → callers w !! i = Some pc → callers w1 = callers w →
  pcInv sender w1 pc' → (critical pc' = true ↔ mutex w1 = Some i) →
  (∀ j pcj, j ≠ i → callers w !! j = Some pcj →
     pcInv sender w pcj → (critical pcj = true ↔ mutex w = Some j) →
     pcInv sender w1 pcj ∧ (critical pcj = true ↔ mutex w1 = Some j)) →
  (mutex w1 = None → settled sender w1) →
  (∀ j, mutex w1 = Some j → j = i ∨ mutex w = Some j) →
  worldInv sender (moveTo i pc' w1).
Proof.
  intros (Hpcs & Hfree & Hheld) Hi Hsame Hnew Hcrit Hothers Hfree' Hheld'.
  split_and!.
  - intros j pcj. simpl. rewrite Hsame. intros Hj.
    apply list_lookup_insert_Some in Hj as [(-> & <- & _)|[Hne Hj]]; [done|].
    destruct (Hpcs j pcj Hj) as [Hinv Hc]. by apply Hothers.
  - done.
  - intros j Hj. simpl in *. rewrite Hsame.
    apply lookup_lt_is_Some. rewrite length_insert. apply lookup_lt_is_Some.
    destruct (Hheld' j Hj) as [->|Hold]; [by eexists|by apply Hheld].
Qed.

Lemma singleton_lookup (l : nat) :
  ({[sender := l]} : gmap string nat) !! sender = Some l.
Proof. apply lookup_singleton_eq. Qed.

(** A list that a lookup finds is the one list, and it was created. *)
Lemma worldInv_published w l :
  worldInv sender w → backingMap (shared w) !! sender = Some l →
  backingMap (shared w) = {[sender := 0%nat]} ∧ created w = 1%nat ∧ l = 0%nat.
Proof.
  intros (Hpcs & Hfree & Hheld) Hget.
  assert (Hsettled : settled sender w →
    backingMap (shared w) = {[sender := 0%nat]} ∧ created w = 1%nat ∧ l = 0%nat).
  { intros [(Hm & _)|(Hm & Hc & _)].
    - by rewrite Hm, lookup_empty in Hget.
    - rewrite Hm, singleton_lookup in Hget. by injection Hget as <-. }
  destruct (mutex w) as [j|] eqn:Hmutex; [|by apply Hsettled, Hfree].
  destruct (Hheld j eq_refl) as [pcj Hj].
  destruct (Hpcs j pcj Hj) as [Hinv [_ Hcrit]].
  specialize (Hcrit eq_refl).
  destruct pcj; simpl in Hinv, Hcrit; try done.
  - by apply Hsettled.
  - destruct Hinv as (Hm & _). by rewrite Hm, lookup_empty in Hget.
  - destruct Hinv as (Hm & _). by rewrite Hm, lookup_empty in Hget.
  - destruct Hinv as (Hm & Hc & _). rewrite Hm, singleton_lookup in Hget.
    by injection Hget as <-.
  - destruct Hinv as (Hm & Hc & _). rewrite Hm, singleton_lookup in Hget.
    by injection Hget as <-.
Qed.

(** While caller [i] holds the mutex, no other caller is between [Lock]
  and [Unlock]. *)
Lemma others_outside w i j pcj :
  mutex w = Some i → j ≠ i →
  (critical pcj = true ↔ mutex w = Some j) → critical pcj = false.
Proof.
  intros Hmutex Hne [Hc _]. destruct (critical pcj); [|done].
  specialize (Hc eq_refl). rewrite Hmutex in Hc. by injection Hc as ->.
Qed.

(** Every step keeps the invariant. *)
Lemma stepCaller_inv i w w' :
  worldInv sender w → stepCaller sender i w = Some w' → worldInv sender w'.
Proof.
  intros Hinv Hstep. unfold stepCaller in Hstep.
  destruct (callers w !! i) as [pc|] eqn:Hi; [|done]. simpl in Hstep.
  pose proof Hinv as (Hpcs & Hfree & Hheld).
  destruct (Hpcs i pc Hi) as [Hpc Hcrit].
  destruct pc as [| | | |l|l|l|l|l]; simpl in Hpc, Hcrit.
  - (* the first lookup *)
    unfold getListForSender, BucketSortedMap.Get in Hstep.
    destruct (backingMap (shared w) !! sender) as [l|] eqn:Hget;
      injection Hstep as <-.
    + apply (worldInv_move i AtLookup (AtAddTx l) w w Hinv Hi eq_refl).
      * by apply worldInv_published.
      * done.
      * by intros.
      * done.
      * intros j Hj. by right.
    + apply (worldInv_move i AtLookup AtLock w w Hinv Hi eq_refl).
      * done.
      * done.
      * by intros.
      * done.
      * intros j Hj. by right.
  - (* Lock *)
    destruct (mutex w) as [j|] eqn:Hmutex; [done|]. injection Hstep as <-.
    apply (worldInv_move i AtLock AtRecheck w (setMutex (Some i) w) Hinv Hi eq_refl).
    + by apply Hfree.
    + done.
    + intros j pcj Hne Hj Hinvj Hcritj. split; [done|]. simpl.
      rewrite Hmutex in Hcritj.
      split; [intros Hc; by apply Hcritj in Hc|intros [= ->]; done].
    + done.
    + simpl. intros j [= ->]. by left.
  - (* the second lookup *)
    unfold getListForSender, BucketSortedMap.Get in Hstep.
    destruct (backingMap (shared w) !! sender) as [l|] eqn:Hget;
      injection Hstep as <-.
    + apply (worldInv_move i AtRecheck (AtUnlock l) w w Hinv Hi eq_refl).
      * simpl. destruct Hpc as [(Hm & _)|(Hm & Hc & Hn)].
        -- by rewrite Hm, lookup_empty in Hget.
        -- rewrite Hm, singleton_lookup in Hget. by injection Hget as <-.
      * done.
      * by intros.
      * done.
      * intros j Hj. by right.
    + apply (worldInv_move i AtRecheck AtNew w w Hinv Hi eq_refl).
      * simpl. destruct Hpc as [Hpc|(Hm & _)]; [done|].
        by rewrite Hm, singleton_lookup in Hget.
      * done.
      * by intros.
      * done.
      * intros j Hj. by right.
  - (* the new list *)
    injection Hstep as <-. destruct Hpc as (Hm & Hc & Hn).
    assert (Hmutex : mutex w = Some i) by by apply Hcrit.
    apply (worldInv_move i AtNew (AtSet (created w)) w (allocList w) Hinv Hi eq_refl).
    + simpl. by rewrite Hc.
    + done.
    + intros j pcj Hne Hj Hinvj Hcritj. split; [|done].
      pose proof (others_outside w i j pcj Hmutex Hne Hcritj) as Hout.
      destruct pcj; simpl in Hinvj, Hout |- *; try done.
      * destruct Hinvj as (Hm' & _). rewrite Hm in Hm'.
        by destruct (map_non_empty_singleton sender 0%nat).
      * destruct Hinvj as (Hm' & _). rewrite Hm in Hm'.
        by destruct (map_non_empty_singleton sender 0%nat).
    + simpl. by rewrite Hmutex.
    + intros j Hj. by right.
  - (* Set *)
    injection Hstep as <-. destruct Hpc as (Hm & Hc & Hn & ->).
    assert (Hmutex : mutex w = Some i) by by apply Hcrit.
    eapply worldInv_move; [exact Hinv|exact Hi|reflexivity|..].
    + simpl. unfold BucketSortedMap.SetItem. by rewrite Hm, insert_empty.
    + done.
    + intros j pcj Hne Hj Hinvj Hcritj. split; [|done].
      pose proof (others_outside w i j pcj Hmutex Hne Hcritj) as Hout.
      destruct pcj; simpl in Hinvj, Hout |- *; try done.
      * destruct Hinvj as (Hm' & _). rewrite Hm in Hm'.
        by destruct (map_non_empty_singleton sender 0%nat).
      * destruct Hinvj as (Hm' & _). rewrite Hm in Hm'.
        by destruct (map_non_empty_singleton sender 0%nat).
    + simpl. by rewrite Hmutex.
    + intros j Hj. by right.
  - (* Increment *)
    injection Hstep as <-. destruct Hpc as (Hm & Hc & Hn & ->).
    assert (Hmutex : mutex w = Some i) by by apply Hcrit.
    eapply worldInv_move; [exact Hinv|exact Hi|reflexivity|..].
    + simpl. by rewrite Hn.
    + done.
    + intros j pcj Hne Hj Hinvj Hcritj. split; [|done].
      pose proof (others_outside w i j pcj Hmutex Hne Hcritj) as Hout.
      destruct pcj; simpl in Hinvj, Hout |- *; done.
    + simpl. by rewrite Hmutex.
    + intros j Hj. by right.
  - (* Unlock *)
    injection Hstep as <-. destruct Hpc as (Hm & Hc & Hn & ->).
    assert (Hmutex : mutex w = Some i) by by apply Hcrit.
    apply (worldInv_move i (AtUnlock 0) (AtAddTx 0) w (setMutex None w) Hinv Hi eq_refl).
    + done.
    + done.
    + intros j pcj Hne Hj Hinvj Hcritj. split; [done|]. simpl.
      rewrite (others_outside w i j pcj Hmutex Hne Hcritj). done.
    + intros _. by right.
    + done.
  - (* AddTx *)
    injection Hstep as <-.
    apply (worldInv_move i (AtAddTx l) (Finished l) w w Hinv Hi eq_refl).
    + done.
    + done.
    + by intros.
    + done.
    + intros j Hj. by right.
  - done.
Qed.

Lemma exec_inv schedule : ∀ w w',
  worldInv sender w → exec sender schedule w = Some w' → worldInv sender w'.
Proof.
  induction schedule as [|i schedule IH]; intros w w' Hinv; simpl.
  - by intros [= <-].
  - destruct (stepCaller sender i w) as [w1|] eqn:Hstep; [|done]. simpl.
    apply IH. by eapply stepCaller_inv.
Qed.

(** What a step does to the callers: one of them moves on. *)
Lemma stepCaller_moves i w w' :
  stepCaller sender i w = Some w' →
  ∃ pc pc', callers w !! i = Some pc ∧ callers w' = <[i := pc']> (callers w)
    ∧ (stepsLeft pc' < stepsLeft pc)%nat.
Proof.
  unfold stepCaller. intros Hstep.
  destruct (callers w !! i) as [pc|] eqn:Hi; [|done]. simpl in Hstep.
  exists pc. destruct pc; simpl in Hstep;
    repeat case_match; simplify_eq; eexists; (split; [done|]);
    (split; [reflexivity|simpl; lia]).
Qed.

Lemma workLeft_insert (pcs : list Pc) i pc pc' :
  pcs !! i = Some pc → (stepsLeft pc' < stepsLeft pc)%nat →
  (foldr (λ pc acc, stepsLeft pc + acc) 0 (<[i := pc']> pcs)
   < foldr (λ pc acc, stepsLeft pc + acc) 0 pcs)%nat.
Proof.
  revert i. induction pcs as [|x pcs IH]; intros [|i] Hi Hlt; simpl in *; try done.
  - injection Hi as ->. lia.
  - specialize (IH i Hi Hlt). lia.
Qed.

Lemma stepCaller_workLeft i w w' :
  stepCaller sender i w = Some w' →
  (workLeft w' < workLeft w)%nat ∧ length (callers w') = length (callers w).
Proof.
  intros (pc & pc' & Hi & Hcallers & Hlt)%stepCaller_moves.
  unfold workLeft. rewrite Hcallers, length_insert.
  split; [by eapply workLeft_insert|done].
Qed.

Lemma exec_workLeft schedule : ∀ w w',
  exec sender schedule w = Some w' →
  (workLeft w' + length schedule ≤ workLeft w)%nat
  ∧ length (callers w') = length (callers w).
Proof.
  induction schedule as [|i schedule IH]; intros w w'; simpl.
  - intros [= <-]. split; [lia|done].
  - destruct (stepCaller sender i w) as [w1|] eqn:Hstep; [|done]. simpl.
    intros Hexec. destruct (IH w1 w' Hexec) as [Hle Hlen].
    destruct (stepCaller_workLeft i w w1 Hstep) as [Hlt Hlen1].
    split; [lia|congruence].
Qed.

Lemma workLeft_initial n : workLeft (initial n) = (8 * n)%nat.
Proof. unfold workLeft. simpl. induction n as [|n IH]; simpl; lia. Qed.

Lemma unfinished_caller (pcs : list Pc) :
  forallb isFinished pcs = false →
  ∃ i pc, pcs !! i = Some pc ∧ isFinished pc = false.
Proof.
  induction pcs as [|x pcs IH]; simpl; [done|].
  destruct (isFinished x) eqn:Hx; simpl.
  - intros (i & pc & Hi & Hpc)%IH. by exists (S i), pc.
  - intros _. by exists 0%nat, x.
Qed.

(** As long as a caller has not finished, some caller can take a step. *)
Lemma worldInv_progress w :
  worldInv sender w → allFinished w = false →
  ∃ i w', stepCaller sender i w = Some w'.
Proof.
  intros (Hpcs & Hfree & Hheld) Hnot.
  destruct (mutex w) as [j|] eqn:Hmutex.
  - destruct (Hheld j eq_refl) as [pcj Hj].
    destruct (Hpcs j pcj Hj) as [_ [_ Hcrit]]. specialize (Hcrit eq_refl).
    exists j. unfold stepCaller. rewrite Hj. simpl.
    destruct pcj; simpl in Hcrit; try discriminate Hcrit;
      repeat case_match; eexists; reflexivity.
  - apply unfinished_caller in Hnot as (i & pc & Hi & Hpc).
    destruct (Hpcs i pc Hi) as [_ [Hcrit _]].
    exists i. unfold stepCaller. rewrite Hi. simpl. rewrite ?Hmutex.
    destruct pc; simpl in Hcrit, Hpc; try discriminate Hpc;
      try (by specialize (Hcrit eq_refl));
      repeat case_match; eexists; reflexivity.
Qed.

(** C9. Callers of [addTx] with transactions of one sender that the map
  does not know yet, their statements interleaved in any order: when all
  have returned, one list was created, it is the entry of the sender in
  the index, every caller got this list and called its [AddTx], and the
  counter is 1.  As long as a caller has not returned some caller can take
  a step, and no execution of [n] callers has more than [8 * n] steps. *)
Theorem C9_one_list_for_concurrent_callers (n : nat) (schedule : list nat)
    (w : World) :
  (0 < n)%nat → exec sender schedule (initial n) = Some w →
  (allFinished w = true →
     created w = 1%nat
     ∧ backingMap (shared w) = {[sender := 0%nat]}
     ∧ callers w = replicate n (Finished 0)
     ∧ counter (shared w) = 1)
  ∧ (allFinished w = false → ∃ i w', stepCaller sender i w = Some w')
  ∧ (length schedule ≤ 8 * n)%nat.
Proof.
  intros Hn Hexec.
  pose proof (exec_inv schedule _ _ (initial_inv n) Hexec) as Hinv.
  destruct (exec_workLeft schedule _ _ Hexec) as [Hwork Hlen].
  rewrite workLeft_initial in Hwork. simpl in Hlen. rewrite length_replicate in Hlen.
  split_and!; [|by apply worldInv_progress|lia].
  intros Hall. destruct Hinv as (Hpcs & Hfree & Hheld).
  assert (Hfin : ∀ i pc, callers w !! i = Some pc → pc = Finished 0
                   ∧ backingMap (shared w) = {[sender := 0%nat]}
                   ∧ created w = 1%nat).
  { intros i pc Hi. destruct (Hpcs i pc Hi) as [Hpc _].
    unfold allFinished in Hall. rewrite forallb_forall in Hall.
    assert (isFinished pc = true) as Hf.
    { apply Hall. apply list_elem_of_In. by eapply list_elem_of_lookup_2. }
    destruct pc; try done. simpl in Hpc. by destruct Hpc as (? & ? & ->). }
  assert (Hfree' : mutex w = None).
  { destruct (mutex w) as [j|] eqn:Hmutex; [|done].
    destruct (Hheld j eq_refl) as [pcj Hj].
    destruct (Hpcs j pcj Hj) as [_ [_ Hcrit]]. specialize (Hcrit eq_refl).
    destruct (Hfin j pcj Hj) as [-> _]. done. }
  destruct (callers w) as [|pc0 pcs] eqn:Hcallers; [simpl in Hlen; lia|].
  destruct (Hfin 0%nat pc0 eq_refl) as (_ & Hm & Hc).
  split_and!; [done|done| |].
  - symmetry. apply replicate_as_Forall. split; [done|].
    rewrite Forall_forall. intros pc Hin.
    apply list_elem_of_lookup in Hin as [i Hi]. by destruct (Hfin i pc Hi) as [-> _].
  - destruct (Hfree Hfree') as [(Hm' & _)|(_ & _ & Hcount)]; [|done].
    rewrite Hm in Hm'. by destruct (map_non_empty_singleton sender 0%nat).
Qed.

End LazyCreationFacts.

(** ** The claims on concrete lists *)
Section Examples.
Import TxListForSender TxListBySenderMap Sample.

Lemma oneTx_wellFormed : wellFormed oneTx.
Proof.
  split.
  - unfold distinct. simpl. apply NoDup_singleton.
  - simpl. repeat constructor.
Qed.

Lemma oneTx_sorted : sortedByNonce (items oneTx).
Proof. simpl. repeat constructor. Qed.

Lemma threeTxs_wellFormed : wellFormed threeTxs.
Proof. apply (run_invariant [OpAddTx hashA txA; OpAddTx hashB txB; OpAddTx hashC txC]). Qed.

Lemma threeTxs_sorted : sortedByNonce (items threeTxs).
Proof. apply (run_invariant [OpAddTx hashA txA; OpAddTx hashB txB; OpAddTx hashC txC]). Qed.

(** C1. The totals after [AddTx(hashA, txA)] and [RemoveTx(txA)] on a new
  list: no transaction is present, so the three sums are 0, and
  [totalBytes] is 0; but [totalFee] still holds the fee of [txA], and
  [totalGas] is short of it. *)
Theorem C1_totals_after_add_and_remove :
  let l := (RemoveTx txA (AddTx hashA txA (newTxListForSender "alice"))).1 in
  items l = []
  ∧ (sumSize (items l) = 0 ∧ totalBytes l = 0)
  ∧ (sumGas (items l) = 0 ∧ totalGas l = - fee txA)
  ∧ (sumFee (items l) = 0 ∧ totalFee l = fee txA)
  ∧ fee txA ≠ 0.
Proof. vm_compute. split_and!; done. Qed.

Lemma C3_tail_eviction_witness :
  wellFormed threeTxs ∧ sortedByNonce (items threeTxs)
  ∧ length (items (RemoveHighNonceTxs 2 threeTxs).1) = 1%nat.
Proof.
  split; [exact threeTxs_wellFormed|]. split; [exact threeTxs_sorted|].
  exact (proj1 (proj2 (proj2
    (C3_tail_eviction threeTxs 2 threeTxs_wellFormed threeTxs_sorted)))).
Defined.

(** C4, as stated, fails on the list of one transaction asked for two: the
  slice returned has two entries, the removed hash and a nil one, and not
  just the hash that was removed. *)
Lemma C4_counterexample_short_list :
  (length (items oneTx) < 2)%nat
  ∧ items (RemoveHighNonceTxs 2 oneTx).1 = []
  ∧ (RemoveHighNonceTxs 2 oneTx).2 = [hashA; []]
  ∧ (RemoveHighNonceTxs 2 oneTx).2 ≠ hashesOf (reverse (items oneTx))
  ∧ length (RemoveHighNonceTxs 2 oneTx).2 ≠ length (items oneTx).
Proof. vm_compute. split_and!; (lia || done). Qed.

Lemma C4_removed_hashes_padded_witness :
  wellFormed oneTx ∧ sortedByNonce (items oneTx)
  ∧ (RemoveHighNonceTxs 2 oneTx).2
      = hashesOf (reverse (drop (1 - 1) (items oneTx))) ++ replicate (2 - 1) [].
Proof.
  split; [exact oneTx_wellFormed|]. split; [exact oneTx_sorted|].
  exact (proj1 (C4_removed_hashes_padded oneTx 2 oneTx_wellFormed oneTx_sorted)).
Defined.

(** C5, as stated, fails for a transaction that is given behind another
  handle than the one the list holds: the list holds [txA] under [hashA];
  [twinA] is the same transaction, with the same hash, but [RemoveTx] of
  it returns false and removes nothing, although an entry with its hash is
  present. *)
Lemma C5_counterexample_same_hash_other_handle :
  let l := AddTx hashA txA (newTxListForSender "alice") in
  sortedByNonce (items l)
  ∧ twinA ≠ txA
  ∧ (nonce twinA, from twinA, size twinA, gas twinA, fee twinA)
    = (nonce txA, from txA, size txA, gas txA, fee txA)
  ∧ (∃ e, e ∈ items l ∧ txHash (Value e) = hashA)
  ∧ (RemoveTx twinA l).2 = false
  ∧ RemoveTx twinA l = (l, false).
Proof.
  intros l. split_and!; try done.
  - exact oneTx_sorted.
  - exists (mkElement 0 (mkNode hashA txA)). split; [left|done].
Qed.

Lemma C5_remove_finds_present_witness :
  sortedByNonce (items threeTxs)
  ∧ ((RemoveTx txA threeTxs).2 = true
     ↔ ∃ e, e ∈ items threeTxs ∧ tx (Value e) = txA).
Proof.
  split; [exact threeTxs_sorted|].
  exact (proj1 (C5_remove_finds_present threeTxs txA threeTxs_sorted)).
Defined.

(** C6, as stated, fails when a second transaction with nonce 5 is added to
  the list that holds one: both entries are present afterwards. *)
Lemma C6_counterexample_both_present :
  let l := AddTx hashB txB oneTx in
  GetNonce txA = GetNonce txB
  ∧ hashesOf (items oneTx) = [hashA]
  ∧ hashesOf (items l) = [hashA; hashB]
  ∧ length (sameNonce txB (items l)) = 2%nat
  ∧ length (sameNonce txB (items l)) ≠ 1%nat.
Proof. vm_compute. split_and!; done. Qed.

Lemma C6_equal_nonce_is_inserted_witness :
  let e := mkElement 0 (mkNode hashA txA) in
  wellFormed oneTx ∧ sortedByNonce (items oneTx)
  ∧ e ∈ items oneTx ∧ nonceOf e = GetNonce txB
  ∧ length (sameNonce txB (items (AddTx hashB txB oneTx)))
      = S (length (sameNonce txB (items oneTx))).
Proof.
  intros e.
  assert (Hin : e ∈ items oneTx) by (simpl; left).
  assert (Hnonce : nonceOf e = GetNonce txB) by reflexivity.
  split; [exact oneTx_wellFormed|]. split; [exact oneTx_sorted|].
  split; [exact Hin|]. split; [exact Hnonce|].
  exact (proj1 (proj2 (proj2
    (C6_equal_nonce_is_inserted oneTx hashB txB e
       oneTx_wellFormed oneTx_sorted Hin Hnonce)))).
Defined.

Lemma batchOfTwo_usable : Forall usableCall [batchOfTwo; batchOfTwo; batchOfTwo].
Proof. repeat constructor; simpl; lia. Qed.

Lemma C7_resumable_cursor_witness :
  wellFormed threeTxs ∧ Forall usableCall [batchOfTwo; batchOfTwo; batchOfTwo]
  ∧ (length (items threeTxs) ≤ length [batchOfTwo; batchOfTwo; batchOfTwo])%nat
  ∧ ∃ l', sweep true [batchOfTwo; batchOfTwo; batchOfTwo] threeTxs
            = Some (l', handlersOf (items threeTxs), hashesOf (items threeTxs))
      ∧ items l' = items threeTxs ∧ copyBatchIndex l' = None.
Proof.
  assert (Hlen : (length (items threeTxs)
                  ≤ length [batchOfTwo; batchOfTwo; batchOfTwo])%nat)
    by (simpl; lia).
  split; [exact threeTxs_wellFormed|]. split; [exact batchOfTwo_usable|].
  split; [exact Hlen|].
  exact (proj2 (proj2
    (C7_resumable_cursor threeTxs batchOfTwo [batchOfTwo; batchOfTwo]
       threeTxs_wellFormed batchOfTwo_usable)) Hlen).
Defined.

Lemma mapOps_small :
  countSenders (runMap (L:=listOfSpec SampleTx) mapOps newTxListBySenderMap)
  < 2 ^ 63.
Proof. vm_compute. reflexivity. Qed.

Lemma C8_counter_counts_senders_witness :
  let txMap := runMap (L:=listOfSpec SampleTx) mapOps newTxListBySenderMap in
  countSenders txMap < 2 ^ 63 ∧ counter txMap = countSenders txMap.
Proof.
  intros txMap. split; [exact mapOps_small|].
  exact (proj1 (C8_counter_counts_senders (L:=listOfSpec SampleTx)
                  mapOps mapOps_small)).
Defined.

Lemma addThenCopy_withoutReset :
  Forall (λ op : Op SampleTx, withoutReset op = true)
    [OpAddTx hashA txA; OpCopyBatchTo false (buffer 1) (hashBuffer 1) 1;
     OpAddTx hashB txB].
Proof. repeat constructor. Qed.

Lemma C10_copy_without_reset_copies_nothing_witness :
  let ops := [OpAddTx hashA txA; OpCopyBatchTo false (buffer 1) (hashBuffer 1) 1;
              OpAddTx hashB txB] in
  let l := run ops (newTxListForSender "alice") in
  Forall (λ op : Op SampleTx, withoutReset op = true) ops
  ∧ copyBatchTo false (buffer 2) (hashBuffer 2) 2 l
      = Some (l, mkCopy None 0 (buffer 2) (hashBuffer 2)).
Proof.
  intros ops l. split; [exact addThenCopy_withoutReset|].
  exact (proj2 (C10_copy_without_reset_copies_nothing "alice" ops
                  (buffer 2) (hashBuffer 2) 2 addThenCopy_withoutReset)).
Defined.

Lemma raceSchedule_runs :
  LazyCreation.exec "alice" raceSchedule (LazyCreation.initial 2)
  = Some (LazyCreation.mkWorld (mkMap {[ "alice" := 0%nat ]} 1) None 1
            [LazyCreation.Finished 0; LazyCreation.Finished 0]).
Proof. vm_compute. reflexivity. Qed.

Lemma C9_one_list_for_concurrent_callers_witness :
  let w := LazyCreation.mkWorld (mkMap {[ "alice" := 0%nat ]} 1) None 1
             [LazyCreation.Finished 0; LazyCreation.Finished 0] in
  (0 < 2)%nat
  ∧ LazyCreation.exec "alice" raceSchedule (LazyCreation.initial 2) = Some w
  ∧ LazyCreation.allFinished w = true
  ∧ LazyCreation.created w = 1%nat ∧ counter (LazyCreation.shared w) = 1.
Proof.
  intros w.
  assert (Hn : (0 < 2)%nat) by lia.
  assert (Hall : LazyCreation.allFinished w = true) by reflexivity.
  split; [exact Hn|]. split; [exact raceSchedule_runs|]. split; [exact Hall|].
  pose proof (proj1 (C9_one_list_for_concurrent_callers "alice" 2 raceSchedule w
                       Hn raceSchedule_runs) Hall) as (Hc & _ & _ & Hcount).
  split; [exact Hc|exact Hcount].
Defined.

End Examples.

(** * Further properties of the code *)

(** ** The list of one sender: totals, removal, counts and hashes *)
Section MoreListFacts.
Context `{TransactionHandler Tx}.
Import TxListForSender.
Implicit Types (l : txListForSender Tx) (xs ys els : list (Elem Tx)).
Implicit Types (e m : Elem Tx) (t : Tx).

Lemma wrapInt64_idemp a : wrapInt64 (wrapInt64 a) = wrapInt64 a.
Proof.
  replace (wrapInt64 a) with (wrapInt64 a + 0) at 1 by lia.
  rewrite wrapInt64_idemp_add. f_equal. lia.
Qed.

(** X1. Whatever calls a new list has received, [totalBytes] is the sum of
  the size estimates of the transactions it holds, as a 64-bit counter
  holds it: exactly that sum whenever the sum fits 64 bits. *)
Theorem totalBytes_is_exact (s : string) (ops : list (Op Tx)) :
  let l := run ops (newTxListForSender s) in
  totalBytes l = wrapInt64 (sumSize (items l))
  ∧ (- 2 ^ 63 ≤ sumSize (items l) < 2 ^ 63 → totalBytes l = sumSize (items l)).
Proof.
  intros l. pose proof (run_bytesExact ops s) as Hb. fold l in Hb.
  split; [exact Hb|]. intros Hrange. rewrite Hb. by apply wrapInt64_small.
Qed.

(** The walk of [findListElementWithTx] passes the entries that hold
  another handler and whose nonce is not larger. *)
Lemma findListElementWithTx_skip xs els t :
  Forall (λ e, tx (Value e) ≠ t ∧ nonceOf e ≤ GetNonce t) xs →
  findListElementWithTx (xs ++ els) t = findListElementWithTx els t.
Proof.
  induction 1 as [|x xs [Hne Hle] _ IH]; [done|]. simpl.
  rewrite decide_False by done. rewrite decide_False by lia. done.
Qed.

(** The element the walk returns is the first that holds the handler. *)
Lemma findListElementWithTx_first els t m :
  findListElementWithTx els t = Some m →
  ∃ xs ys, els = xs ++ m :: ys ∧ tx (Value m) = t
    ∧ Forall (λ e, tx (Value e) ≠ t) xs.
Proof.
  induction els as [|x els IH]; simpl; [done|].
  destruct (decide (tx (Value x) = t)) as [Heq|Hne].
  - intros [= <-]. by exists [], els.
  - destruct (decide (nonceOf x > GetNonce t)); [done|].
    intros (xs & ys & -> & Hm & Hall)%IH.
    exists (x :: xs), ys. split_and!; [done|done|by constructor].
Qed.

(** X2. [AddTx] followed by [RemoveTx] of the same handler, on a list that
  did not hold it: the removal finds it, the sequence and the cursor are
  what they were, and so is [totalBytes]. *)
Theorem AddTx_then_RemoveTx (l : txListForSender Tx) (hash : bytes) (t : Tx) :
  wellFormed l → bytesExact l →
  (∀ e, e ∈ items l → tx (Value e) ≠ t) →
  let r := RemoveTx t (AddTx hash t l) in
  r.2 = true
  ∧ items r.1 = items l
  ∧ copyBatchIndex r.1 = copyBatchIndex l
  ∧ totalBytes r.1 = totalBytes l.
Proof.
  intros Hwf Hb Habsent r.
  destruct (AddTx_items hash t l Hwf) as (xs & ys & Heq & Heq' & Hxs & _).
  pose proof (AddTx_wellFormed hash t l Hwf) as [Hdist' _].
  set (new := mkElement (nextElem l) (mkNode hash t)) in *.
  assert (Hfind : findListElementWithTx (items (AddTx hash t l)) t = Some new).
  { rewrite Heq', findListElementWithTx_skip.
    - simpl. by rewrite decide_True.
    - rewrite Forall_forall in Hxs |- *. intros x Hx. split; [|by apply Hxs].
      apply Habsent. rewrite Heq, elem_of_app. by left. }
  destruct (AddTx_fields hash t l) as (_ & Hcur & _).
  assert (Hbytes : totalBytes (AddTx hash t l)
                   = AtomicCounter.Add (totalBytes l) (estimateTxSize t)) by done.
  subst r. unfold RemoveTx. rewrite Hfind.
  remember (AddTx hash t l) as l' eqn:Hl'. cbn [fst snd].
  split_and!; [done| |done|].
  - cbn [onRemovedListElement setItems items]. rewrite Heq'. rewrite Heq' in Hdist'.
    by rewrite Remove_middle.
  - cbn [onRemovedListElement setItems totalBytes]. rewrite Hbytes.
    unfold AtomicCounter.Subtract, AtomicCounter.Add. subst new. cbn [Value tx].
    rewrite wrapInt64_idemp_sub.
    replace (totalBytes l + estimateTxSize t - estimateTxSize t)
      with (totalBytes l) by lia.
    unfold bytesExact in Hb. rewrite Hb. apply wrapInt64_idemp.
Qed.

(** X3. A [RemoveTx] that returns true takes out one entry, the first one
  that holds the handler; the other entries stay, in their order, and the
  count is one less. *)
Theorem RemoveTx_takes_out_the_first (l : txListForSender Tx) (t : Tx) :
  wellFormed l → (RemoveTx t l).2 = true →
  ∃ xs m ys, items l = xs ++ m :: ys
    ∧ tx (Value m) = t
    ∧ Forall (λ e, tx (Value e) ≠ t) xs
    ∧ items (RemoveTx t l).1 = xs ++ ys
    ∧ countTx (RemoveTx t l).1 = countTx l - 1.
Proof.
  intros [Hdist _]. unfold RemoveTx.
  destruct (findListElementWithTx (items l) t) as [m|] eqn:Hfind; [|done].
  intros _. apply findListElementWithTx_first in Hfind as (xs & ys & Heq & Hm & Hall).
  exists xs, m, ys. simpl. rewrite Heq in Hdist. unfold countTx, Len. simpl.
  rewrite Heq, Remove_middle by done.
  split_and!; try done. rewrite !length_app. simpl. lia.
Qed.

Lemma HasMoreThan_lt (l : txListForSender Tx) (count : nat) :
  countTx l < 2 ^ 32 →
  HasMoreThan count l = true ↔ (count < length (items l))%nat.
Proof.
  intros Hsmall. unfold HasMoreThan, countTx, Len in *.
  rewrite bool_decide_eq_true, Z.mod_small by lia. lia.
Qed.

(** X4. [IsEmpty] holds exactly of the list without entries, and on a list
  of fewer than [2^32] entries [HasMoreThan count] holds exactly when the
  list has more than [count] entries. *)
Theorem HasMoreThan_counts (l : txListForSender Tx) (count : nat) :
  countTx l < 2 ^ 32 →
  (HasMoreThan count l = true ↔ (count < length (items l))%nat)
  ∧ (IsEmpty l = true ↔ items l = []).
Proof.
  intros Hsmall. split; [by apply HasMoreThan_lt|].
  unfold IsEmpty, countTx, Len. rewrite bool_decide_eq_true.
  destruct (items l); simpl; [done|]. split; [lia|done].
Qed.

(** X5. After [HasMoreThan count] has held (on a list of fewer than [2^32]
  entries), [RemoveHighNonceTxs count] returns [count] hashes, those of
  the last [count] entries from the back on, none of them a nil filler,
  and the list is not empty afterwards. *)
Theorem HasMoreThan_then_RemoveHighNonceTxs (l : txListForSender Tx) (count : nat) :
  wellFormed l → countTx l < 2 ^ 32 → HasMoreThan count l = true →
  let n := length (items l) in
  (RemoveHighNonceTxs count l).2 = hashesOf (reverse (drop (n - count) (items l)))
  ∧ length (RemoveHighNonceTxs count l).2 = count
  ∧ items (RemoveHighNonceTxs count l).1 = take (n - count) (items l)
  ∧ IsEmpty (RemoveHighNonceTxs count l).1 = false.
Proof.
  intros Hwf Hsmall Hmore n.
  apply (HasMoreThan_lt l count Hsmall) in Hmore. fold n in Hmore.
  destruct (RemoveHighNonceTxs_spec count l Hwf) as (Hkept & _ & _ & Hres).
  fold n in Hkept, Hres.
  replace (count `min` n)%nat with count in Hkept, Hres by lia.
  rewrite Nat.sub_diag, app_nil_r in Hres.
  split_and!; [done| |done|].
  - rewrite Hres. unfold hashesOf. rewrite length_fmap, length_reverse, length_drop.
    fold n. lia.
  - unfold IsEmpty, countTx, Len. rewrite Hkept, length_take. fold n.
    apply bool_decide_eq_false. lia.
Qed.

Lemma fillTxHashes_spec els : ∀ (done rest : list bytes),
  length rest = length els →
  fillTxHashes els (length done) (done ++ rest) = done ++ hashesOf els.
Proof.
  induction els as [|e els IH]; intros done rest Hlen.
  - destruct rest; [|done]. done.
  - destruct rest as [|r rest]; [done|]. simpl.
    rewrite insert_app_r_alt by lia. rewrite Nat.sub_diag. simpl.
    rewrite (cons_middle _ done rest), app_assoc.
    replace (S (length done)) with (length (done ++ [txHash (Value e)]))
      by (rewrite length_app; simpl; lia).
    rewrite IH by (simpl in Hlen; lia).
    by rewrite <- app_assoc.
Qed.

Lemma getTxHashesByIndex_hashes l : getTxHashesByIndex l = hashesOf (items l).
Proof.
  unfold getTxHashesByIndex, countTx, Len. rewrite Nat2Z.id.
  apply (fillTxHashes_spec (items l) [] (replicate (length (items l)) [])).
  apply length_replicate.
Qed.




(** X7. [getHighestNonceTx] returns nil exactly on the list without
  entries; on a sorted list the transaction it returns is held by the
  list and no entry has a larger nonce. *)
Theorem getHighestNonceTx_is_highest (l : txListForSender Tx) :
  sortedByNonce (items l) →
  (getHighestNonceTx l = None ↔ items l = [])
  ∧ ∀ t, getHighestNonceTx l = Some t →
      (∃ e, e ∈ items l ∧ tx (Value e) = t)
      ∧ ∀ e, e ∈ items l → nonceOf e ≤ GetNonce t.
Proof.
  intros Hs. unfold getHighestNonceTx, Back. split.
  - destruct (last (items l)) as [back|] eqn:Hback.
    + split; [done|]. intros Hnil. by rewrite Hnil in Hback.
    + by apply last_None in Hback.
  - intros t. destruct (last (items l)) as [back|] eqn:Hback; [|done].
    intros [= <-]. apply last_Some in Hback as [xs Heq]. split.
    + exists back. split; [|done]. rewrite Heq, elem_of_app. right. left.
    + intros e. rewrite Heq in Hs |- *.
      apply StronglySorted_app in Hs as (Hx & _ & _).
      intros [Hin| ->%list_elem_of_singleton]%elem_of_app; [|done].
      apply Hx; [done|left].
Qed.

(** X8. Two evictions in a row leave the sequence that one eviction of the
  two counts together leaves. *)
Theorem RemoveHighNonceTxs_twice (l : txListForSender Tx) (a b : nat) :
  wellFormed l →
  items (RemoveHighNonceTxs b (RemoveHighNonceTxs a l).1).1
  = items (RemoveHighNonceTxs (a + b) l).1.
Proof.
  intros Hwf.
  pose proof (RemoveHighNonceTxs_wellFormed a l Hwf) as Hwf1.
  destruct (RemoveHighNonceTxs_spec a l Hwf) as (H1 & _).
  destruct (RemoveHighNonceTxs_spec b _ Hwf1) as (H2 & _).
  destruct (RemoveHighNonceTxs_spec (a + b) l Hwf) as (H3 & _).
  rewrite H2, H3, H1, length_take, take_take. f_equal. lia.
Qed.

(** X9. The hashes that [RemoveHighNonceTxs] returns for the entries it
  removed are the end of the listing of [getTxHashes], last hash first:
  the listing before the call is the listing after it, followed by the
  returned hashes in reverse. *)
Theorem RemoveHighNonceTxs_returns_the_tail (l : txListForSender Tx) (count : nat) :
  wellFormed l →
  let m := (count `min` length (items l))%nat in
  let r := RemoveHighNonceTxs count l in
  getTxHashesByIndex l = getTxHashesByIndex r.1 ++ reverse (take m r.2)
  ∧ drop m r.2 = replicate (count - m) [].
Proof.
  intros Hwf m r. rewrite !getTxHashesByIndex_hashes.
  destruct (RemoveHighNonceTxs_spec count l Hwf) as (Hkept & _ & _ & Hres).
  fold m in Hkept, Hres. fold r in Hkept, Hres.
  set (n := length (items l)) in *.
  assert (Hlen : length (hashesOf (reverse (drop (n - m) (items l)))) = m).
  { unfold hashesOf. rewrite length_fmap, length_reverse, length_drop. lia. }
  rewrite Hres, Hkept. rewrite take_app_length', drop_app_length' by done.
  split; [|done]. unfold hashesOf.
  rewrite fmap_reverse, reverse_involutive, <- fmap_app. by rewrite take_drop.
Qed.

End MoreListFacts.

(** ** The list of one sender: the batch copy at its edges *)
Section MoreCopyFacts.
Context `{TransactionHandler Tx}.
Import TxListForSender.
Implicit Types (l : txListForSender Tx) (xs ys els : list (Elem Tx)).
Implicit Types (e m : Elem Tx) (t : Tx).

Lemma copyCount_stop batchSize (c space remaining : nat) :
  Z.of_nat c = batchSize ∨ space = 0%nat ∨ remaining = 0%nat →
  copyCount batchSize c space remaining = 0%nat.
Proof. unfold copyCount. intros Hstop. case_decide; lia. Qed.

Lemma copyCount_step batchSize (c space remaining : nat) :
  Z.of_nat c ≠ batchSize →
  copyCount batchSize c (S space) (S remaining)
  = S (copyCount batchSize (S c) space remaining).
Proof. unfold copyCount. intros Hne. repeat case_decide; lia. Qed.

(** The loop of [copyBatchTo] for any batch size and any slice of hashes:
  it copies [copyCount] entries when the slice of hashes has room for
  them, and panics when it has not. *)
Lemma copyLoop_general batchSize space : ∀ xs ys (c : nat) dst (dstH : list bytes),
  distinct (xs ++ ys) → length dst = (c + space)%nat →
  let k := copyCount batchSize c space (length ys) in
  ((c + k ≤ length dstH)%nat →
     copyLoop (xs ++ ys) batchSize space (head ys) c dst dstH
     = Some (mkCopy (head (drop k ys)) (c + k)
               (take c dst ++ handlersOf (take k ys) ++ drop (c + k) dst)
               (take c dstH ++ hashesOf (take k ys) ++ drop (c + k) dstH)))
  ∧ ((c ≤ length dstH < c + k)%nat →
     copyLoop (xs ++ ys) batchSize space (head ys) c dst dstH = None).
Proof.
  induction space as [|space IH]; intros xs ys c dst dstH Hdist Hlen k.
  - assert (k = 0%nat) as -> by (apply copyCount_stop; auto).
    split; [|lia]. intros _. rewrite Nat.add_0_r. simpl.
    rewrite !take_drop. destruct ys; simpl; [done|]. by case_decide.
  - destruct ys as [|e ys].
    + assert (k = 0%nat) as -> by (apply copyCount_stop; auto).
      split; [|lia]. intros _. simpl. by rewrite Nat.add_0_r, !take_drop.
    + simpl. case_decide as Hbatch.
      * assert (k = 0%nat) as -> by (apply copyCount_stop; auto).
        split; [|lia]. intros _. rewrite Nat.add_0_r. simpl. by rewrite !take_drop.
      * subst k. simpl length. rewrite copyCount_step by done.
        set (k' := copyCount batchSize (S c) space (length ys)).
        rewrite Next_middle by done.
        rewrite (cons_middle e xs ys), app_assoc in Hdist |- *.
        destruct (IH (xs ++ [e]) ys (S c)
                    (<[c := Some (tx (Value e))]> dst)
                    (<[c := txHash (Value e)]> dstH) Hdist) as [IHsome IHnone].
        { rewrite length_insert. lia. }
        fold k' in IHsome, IHnone.
        rewrite length_insert in IHsome. rewrite length_insert in IHnone.
        split.
        -- intros Hroom. rewrite decide_True by lia. rewrite IHsome by lia.
           f_equal. f_equal.
           ++ lia.
           ++ rewrite (take_S_r _ c (Some (tx (Value e)))).
              2:{ apply list_lookup_insert_eq. lia. }
              rewrite take_insert_ge by lia. rewrite drop_insert_lt by lia.
              simpl. rewrite <- app_assoc. simpl.
              by replace (S (c + k')) with (c + S k')%nat by lia.
           ++ rewrite (take_S_r _ c (txHash (Value e))).
              2:{ apply list_lookup_insert_eq. lia. }
              rewrite take_insert_ge by lia. rewrite drop_insert_lt by lia.
              simpl. rewrite <- app_assoc. simpl.
              by replace (S (c + k')) with (c + S k')%nat by lia.
        -- intros Hshort. case_decide as Hroom; [|done].
           apply IHnone. lia.
Qed.

(** One call without reset with the cursor at position [p], for any batch
  size and any slice of hashes. *)
Lemma copyBatchTo_general l (p : nat) dst (dstH : list bytes) batchSize :
  wellFormed l → cursorAt l p →
  let k := copyCount batchSize 0 (length dst) (length (items l) - p) in
  ((k ≤ length dstH)%nat →
     copyBatchTo false dst dstH batchSize l
     = Some (setCopyBatchIndex (items l !! (p + k)%nat) l,
             mkCopy (items l !! (p + k)%nat) k
               (handlersOf (take k (drop p (items l))) ++ drop k dst)
               (hashesOf (take k (drop p (items l))) ++ drop k dstH)))
  ∧ ((length dstH < k)%nat → copyBatchTo false dst dstH batchSize l = None).
Proof.
  intros [Hdist _] Hcur k. unfold copyBatchTo, resetCursor. unfold cursorAt in Hcur.
  destruct (copyBatchIndex l) as [e|] eqn:Hidx.
  - symmetry in Hcur.
    assert (Hhead : head (drop p (items l)) = Some e).
    { by rewrite head_lookup, lookup_drop, Nat.add_0_r. }
    destruct (copyLoop_general batchSize (length dst) (take p (items l))
                (drop p (items l)) 0 dst dstH) as [Hsome Hnone].
    { by rewrite take_drop. }
    { done. }
    rewrite take_drop, Hhead, length_drop in Hsome, Hnone. fold k in Hsome, Hnone.
    split.
    + intros Hroom. rewrite Hsome by lia. simpl.
      rewrite head_lookup, lookup_drop, lookup_drop, Nat.add_0_r. done.
    + intros Hshort. rewrite Hnone by lia. done.
  - symmetry in Hcur. apply lookup_ge_None in Hcur.
    assert (k = 0%nat) as ->.
    { apply copyCount_stop. right. right. lia. }
    split; [|lia]. intros _.
    assert (Hl : setCopyBatchIndex None l = l).
    { rewrite <- Hidx. apply setCopyBatchIndex_same. }
    rewrite Nat.add_0_r, lookup_ge_None_2 by lia. rewrite Hl. done.
Qed.

(** X10. A batch size that is not positive: with [batchSize = 0] a call
  copies nothing; with a negative [batchSize] the batch has no limit, and
  the call copies as many entries as the destination has slots, or as are
  left from the cursor on. *)
Theorem copyBatchTo_batchSize_not_positive (l : txListForSender Tx) (p : nat)
    (dst : list (option Tx)) (dstH : list bytes) (batchSize : Z) :
  wellFormed l → cursorAt l p → (length dst ≤ length dstH)%nat →
  batchSize ≤ 0 →
  let k := if decide (batchSize = 0) then 0%nat
           else (length dst `min` (length (items l) - p))%nat in
  ∃ l' r, copyBatchTo false dst dstH batchSize l = Some (l', r)
    ∧ copied r = k
    ∧ take k (destination r) = handlersOf (take k (drop p (items l)))
    ∧ take k (destinationHashes r) = hashesOf (take k (drop p (items l)))
    ∧ cursorAt l' (p + k).
Proof.
  intros Hwf Hcur Hlen Hbatch k.
  destruct (copyBatchTo_general l p dst dstH batchSize Hwf Hcur) as [Hsome _].
  assert (Hk : copyCount batchSize 0 (length dst) (length (items l) - p) = k).
  { subst k. unfold copyCount. repeat case_decide; lia. }
  rewrite Hk in Hsome.
  assert (Hkn : (k ≤ length dst ∧ k ≤ length (items l) - p)%nat).
  { subst k. case_decide; lia. }
  eexists _, _. split; [apply Hsome; lia|]. simpl.
  assert (Hlk : length (take k (drop p (items l))) = k).
  { rewrite length_take, length_drop. lia. }
  split_and!; [done| | |done].
  - rewrite take_app_length'; [done|]. unfold handlersOf. by rewrite length_fmap.
  - rewrite take_app_length'; [done|]. unfold hashesOf. by rewrite length_fmap.
Qed.

(** X11. A call panics (an index out of range) exactly when the slice of
  hashes is shorter than the number of entries the call is to copy, and
  otherwise returns that number. *)
Theorem copyBatchTo_panics_on_short_hashes (l : txListForSender Tx) (p : nat)
    (dst : list (option Tx)) (dstH : list bytes) (batchSize : Z) :
  wellFormed l → cursorAt l p →
  let k := copyCount batchSize 0 (length dst) (length (items l) - p) in
  (copyBatchTo false dst dstH batchSize l = None ↔ (length dstH < k)%nat)
  ∧ (∀ l' r, copyBatchTo false dst dstH batchSize l = Some (l', r) →
       copied r = k ∧ (k ≤ length dstH)%nat).
Proof.
  intros Hwf Hcur k.
  destruct (copyBatchTo_general l p dst dstH batchSize Hwf Hcur) as [Hsome Hnone].
  fold k in Hsome, Hnone.
  destruct (decide (length dstH < k)%nat) as [Hshort|Hroom].
  - rewrite Hnone by done. split; [done|]. intros l' r [=].
  - rewrite Hsome by lia. split; [split; [done|lia]|].
    intros l' r [= <- <-]. simpl. split; [done|lia].
Qed.

Lemma take_shorter {A} (n m : nat) (xs ys : list A) :
  (n ≤ m)%nat → take m xs = take m ys → take n xs = take n ys.
Proof.
  intros Hle Heq. apply (f_equal (take n)) in Heq.
  rewrite !take_take in Heq. by rewrite Nat.min_l in Heq by lia.
Qed.

(** What the loop leaves as it is: the lengths of the two slices and
  their slots outside the copied ones. *)
Lemma copyLoop_frame els batchSize space : ∀ element (c : nat) dst
    (dstH : list bytes) r,
  copyLoop els batchSize space element c dst dstH = Some r →
  length (destination r) = length dst
  ∧ length (destinationHashes r) = length dstH
  ∧ (c ≤ copied r ≤ c + space)%nat
  ∧ (Z.of_nat c ≤ batchSize → Z.of_nat (copied r) ≤ batchSize)
  ∧ take c (destination r) = take c dst
  ∧ take c (destinationHashes r) = take c dstH
  ∧ drop (copied r) (destination r) = drop (copied r) dst
  ∧ drop (copied r) (destinationHashes r) = drop (copied r) dstH.
Proof.
  induction space as [|space IH]; intros element c dst dstH r; simpl.
  - destruct element as [e|]; [case_decide|]; intros [= <-]; simpl;
      split_and!; (done || lia).
  - destruct element as [e|]; [|intros [= <-]; simpl; split_and!; (done || lia)].
    case_decide as Hbatch; [intros [= <-]; simpl; split_and!; (done || lia)|].
    case_decide as Hroom; [|done].
    intros (Hl1 & Hl2 & Hc & Hb & Ht1 & Ht2 & Hd1 & Hd2)%IH.
    rewrite length_insert in Hl1. rewrite length_insert in Hl2.
    split_and!; try (done || lia).
    + apply (take_shorter c (S c)) in Ht1; [|lia].
      by rewrite Ht1, take_insert_ge by lia.
    + apply (take_shorter c (S c)) in Ht2; [|lia].
      by rewrite Ht2, take_insert_ge by lia.
    + rewrite Hd1. by rewrite drop_insert_lt by lia.
    + rewrite Hd2. by rewrite drop_insert_lt by lia.
Qed.

(** X12. Whatever the list and the arguments: a call that returns has
  copied no more entries than the destination has slots and, when the
  batch size is not negative, than the batch size; the two slices keep
  their lengths and their slots from [copied] on; the sequence of the list
  and its totals are as before. *)
Theorem copyBatchTo_writes_only_the_copied_slots (l : txListForSender Tx)
    (withReset : bool) (dst : list (option Tx)) (dstH : list bytes)
    (batchSize : Z) (l' : txListForSender Tx) (r : copyResult Tx) :
  copyBatchTo withReset dst dstH batchSize l = Some (l', r) →
  (copied r ≤ length dst)%nat
  ∧ (0 ≤ batchSize → Z.of_nat (copied r) ≤ batchSize)
  ∧ length (destination r) = length dst
  ∧ length (destinationHashes r) = length dstH
  ∧ drop (copied r) (destination r) = drop (copied r) dst
  ∧ drop (copied r) (destinationHashes r) = drop (copied r) dstH
  ∧ items l' = items l
  ∧ (totalBytes l', totalGas l', totalFee l') = (totalBytes l, totalGas l, totalFee l).
Proof.
  unfold copyBatchTo. intros Hcopy.
  destruct (copyBatchIndex (resetCursor withReset l)) as [e|] eqn:Hidx.
  - destruct (copyLoop _ _ _ _ _ _ _) as [r'|] eqn:Hloop; [|done].
    simpl in Hcopy. injection Hcopy as <- <-.
    apply copyLoop_frame in Hloop as (Hl1 & Hl2 & Hc & Hb & _ & _ & Hd1 & Hd2).
    split_and!; try (done || lia); by destruct withReset.
  - injection Hcopy as <- <-. simpl.
    split_and!; try (done || lia); by destruct withReset.
Qed.

(** X13. When the entry the cursor rests on is removed from the list, the
  next call without reset (with room for one entry and a batch size other
  than 0) still copies the removed transaction, only it, and leaves the
  cursor nil: the entries behind it are not copied. *)
Theorem copyBatchTo_after_removal_of_the_cursor_entry (l : txListForSender Tx)
    (e : Elem Tx) (t : Tx) (d : option Tx) (dst : list (option Tx))
    (h : bytes) (dstH : list bytes) (batchSize : Z) :
  wellFormed l → copyBatchIndex l = Some e →
  findListElementWithTx (items l) t = Some e → batchSize ≠ 0 →
  let l1 := (RemoveTx t l).1 in
  (e ∉ items l1)
  ∧ copyBatchTo false (d :: dst) (h :: dstH) batchSize l1
    = Some (setCopyBatchIndex None l1,
            mkCopy None 1 (Some (tx (Value e)) :: dst) (txHash (Value e) :: dstH)).
Proof.
  intros Hwf Hidx Hfind Hbatch l1.
  destruct (RemoveTx_items t l e Hwf Hfind) as (xs & ys & Heq & Heq').
  fold l1 in Heq'. destruct Hwf as [Hdist _]. rewrite Heq in Hdist.
  apply distinct_middle in Hdist as (Hxs & Hys & _).
  assert (Habsent : eid e ∉ eid <$> items l1).
  { rewrite Heq', fmap_app, elem_of_app. tauto. }
  assert (Hcur : copyBatchIndex l1 = Some e).
  { subst l1. destruct (RemoveTx_fields t l) as [_ ->]. done. }
  split.
  - intros Hin. apply Habsent. by apply list_elem_of_fmap_2.
  - unfold copyBatchTo, resetCursor. rewrite Hcur.
    cbn [copyLoop length mbind option_bind].
    rewrite decide_False by (simpl; lia). rewrite decide_True by (simpl; lia).
    unfold Next. rewrite indexOf_absent by done.
    by destruct (length dst).
Qed.

(** X14. [AddTx] leaves the cursor on the entry it rests on: on a sorted
  list the entry is one position further back when the new transaction
  has a smaller nonce, and where it was otherwise. *)
Theorem AddTx_keeps_the_cursor_entry (l : txListForSender Tx) (hash : bytes)
    (t : Tx) (p : nat) (e : Elem Tx) :
  wellFormed l → sortedByNonce (items l) →
  copyBatchIndex l = Some e → items l !! p = Some e →
  let p' := if decide (GetNonce t < nonceOf e) then S p else p in
  copyBatchIndex (AddTx hash t l) = Some e
  ∧ items (AddTx hash t l) !! p' = Some e
  ∧ cursorAt (AddTx hash t l) p'.
Proof.
  intros Hwf Hs Hidx Hp p'.
  destruct (AddTx_sorted_split hash t l Hwf Hs) as (xs & ys & Heq & Heq' & Hxs & Hys).
  destruct (AddTx_fields hash t l) as (_ & Hcur & _).
  assert (Hp' : items (AddTx hash t l) !! p' = Some e).
  { rewrite Heq'. rewrite Heq in Hp. subst p'.
    rewrite Forall_forall in Hxs, Hys.
    destruct (decide (p < length xs)%nat) as [Hlt|Hge].
    - rewrite lookup_app_l in Hp by done.
      assert (nonceOf e ≤ GetNonce t) by (eapply Hxs, list_elem_of_lookup_2, Hp).
      rewrite decide_False by lia. by rewrite lookup_app_l.
    - rewrite lookup_app_r in Hp by lia.
      assert (nonceOf e > GetNonce t) by (eapply Hys, list_elem_of_lookup_2, Hp).
      rewrite decide_True by lia. rewrite lookup_app_r by lia.
      replace (S p - length xs)%nat with (S (p - length xs)) by lia. done. }
  split_and!; [by rewrite Hcur|done|].
  unfold cursorAt. by rewrite Hcur, Hp'.
Qed.

End MoreCopyFacts.

(** ** The map of the lists: what its methods do to the senders *)
Section MoreMapFacts.
Context `{TransactionHandler Tx} `{!TxListBySenderMap.ListForSender Tx L R}.
Import TxListBySenderMap.
Implicit Types (txMap : txListBySenderMap L) (w : WrappedTransaction Tx).

Lemma removeSender_lookup (k s : string) txMap :
  backingMap (removeSender k txMap).1 !! s
  = if decide (s = k) then None else backingMap txMap !! s.
Proof.
  unfold removeSender, BucketSortedMap.Has, BucketSortedMap.Remove.
  case_bool_decide as Hin; simpl.
  - rewrite lookup_delete. repeat case_decide; congruence.
  - case_decide as Hs; [|done]. subst s.
    destruct (backingMap txMap !! k) eqn:Hget; [|done]. destruct Hin. by eexists.
Qed.

Lemma RemoveSendersBulk_lookup senders : ∀ txMap numRemoved (s : string),
  backingMap (RemoveSendersBulk senders txMap numRemoved).1 !! s
  = if decide (s ∈ senders) then None else backingMap txMap !! s.
Proof.
  induction senders as [|senderKey senders IH]; intros txMap numRemoved s.
  - by simpl.
  - cbn [RemoveSendersBulk]. pose proof (removeSender_lookup senderKey s txMap) as Hone.
    destruct (removeSender senderKey txMap) as [txMap1 removed]. simpl in Hone.
    rewrite IH, Hone.
    destruct (decide (s ∈ senders)) as [Hs|Hs];
      destruct (decide (s = senderKey)) as [Hk|Hk];
      destruct (decide (s ∈ senderKey :: senders)) as [Hin|Hin];
      try done; set_solver.
Qed.

Lemma RemoveSendersBulk_count senders : ∀ txMap numRemoved,
  (RemoveSendersBulk senders txMap numRemoved).2
    `mod` 2 ^ 32
  = (numRemoved + countSenders txMap
     - countSenders (RemoveSendersBulk senders txMap numRemoved).1) `mod` 2 ^ 32.
Proof.
  induction senders as [|senderKey senders IH]; intros txMap numRemoved.
  - simpl. f_equal. lia.
  - simpl. unfold removeSender, BucketSortedMap.Has, BucketSortedMap.Remove.
    case_bool_decide as Hin; simpl; rewrite IH; [|done].
    unfold countSenders at 1 3. simpl.
    rewrite map_size_delete_Some by done.
    assert (size (backingMap txMap) ≠ 0%nat) as Hsize.
    { intros Hz. apply map_size_empty_iff in Hz. rewrite Hz, lookup_empty in Hin.
      by destruct Hin. }
    set (after := countSenders _).
    replace ((numRemoved + 1) `mod` 2 ^ 32 + Z.of_nat (pred (size (backingMap txMap))) - after)
      with ((numRemoved + 1) `mod` 2 ^ 32 + (Z.of_nat (size (backingMap txMap)) - 1 - after))
      by lia.
    rewrite Zplus_mod_idemp_l. f_equal. lia.
Qed.

Lemma RemoveSendersBulk_range senders : ∀ txMap numRemoved,
  0 ≤ numRemoved < 2 ^ 32 →
  0 ≤ (RemoveSendersBulk senders txMap numRemoved).2 < 2 ^ 32.
Proof.
  induction senders as [|senderKey senders IH]; intros txMap numRemoved Hr; [done|].
  simpl. destruct (removeSender senderKey txMap) as [txMap1 [|]]; apply IH; [|done].
  apply Z.mod_pos_bound. lia.
Qed.

(** X15. [RemoveSendersBulk] leaves no sender of the slice in the index
  and every other sender as it was, whether or not the slice names a
  sender twice or names unknown senders; the number it returns is the
  number of senders that left the index (as a [uint32]); and the counter
  still counts the senders. *)
Theorem RemoveSendersBulk_removes_the_senders (senders : list string)
    (txMap : txListBySenderMap L) :
  let r := RemoveSendersBulk senders txMap 0 in
  (∀ s, s ∈ senders → backingMap r.1 !! s = None)
  ∧ (∀ s, s ∉ senders → backingMap r.1 !! s = backingMap txMap !! s)
  ∧ r.2 = (countSenders txMap - countSenders r.1) `mod` 2 ^ 32
  ∧ (counted txMap → counted r.1).
Proof.
  intros r. split_and!.
  - intros s Hs. subst r. by rewrite RemoveSendersBulk_lookup, decide_True.
  - intros s Hs. subst r. by rewrite RemoveSendersBulk_lookup, decide_False.
  - pose proof (RemoveSendersBulk_count senders txMap 0) as Hcount.
    pose proof (RemoveSendersBulk_range senders txMap 0) as Hrange.
    fold r in Hcount, Hrange. rewrite Z.mod_small in Hcount by (apply Hrange; lia).
    by rewrite Z.add_0_l in Hcount.
  - apply RemoveSendersBulk_counted.
Qed.

(** X16. [addTx] makes the sender of the transaction known and leaves the
  lists of the other senders as they were; the counter goes up by one when
  the sender was not known, and stays as it was when it was known. *)
Theorem addTx_adds_at_most_the_sender (w : WrappedTransaction Tx)
    (txMap : txListBySenderMap L) :
  let s := GetSndAddr (Tx_ w) in
  let txMap' := (addTx w txMap).1 in
  is_Some (backingMap txMap' !! s)
  ∧ (∀ s', s' ≠ s → backingMap txMap' !! s' = backingMap txMap !! s')
  ∧ counter txMap'
    = (if decide (is_Some (backingMap txMap !! s)) then counter txMap
       else AtomicCounter.Increment (counter txMap))
  ∧ dom (backingMap txMap') = {[s]} ∪ dom (backingMap txMap).
Proof.
  intros s txMap'. subst txMap'. unfold addTx. fold s.
  unfold getOrAddListForSender, getListForSender, BucketSortedMap.Get.
  destruct (decide (is_Some (backingMap txMap !! s))) as [[l Hget]|Hnone].
  - rewrite Hget. destruct (listAddTx w l) as [l' report]. cbn [fst snd updateList backingMap counter].
    split_and!; [by rewrite lookup_insert_eq| |done|].
    + intros s' Hne. by rewrite lookup_insert_ne.
    + rewrite dom_insert_L. apply elem_of_dom_2 in Hget. set_solver.
  - apply eq_None_not_Some in Hnone. rewrite Hnone.
    unfold addSender. destruct (listAddTx w (newList s)) as [l' report].
    cbn [fst snd updateList backingMap counter].
    unfold BucketSortedMap.SetItem.
    split_and!; [by rewrite lookup_insert_eq| |done|].
    + intros s' Hne. by rewrite !lookup_insert_ne.
    + rewrite !dom_insert_L. set_solver.
Qed.

(** X17. [removeTx] of a transaction whose sender is not known returns
  false and leaves the map as it is; and [removeTx] never makes a sender
  known, nor touches the list of another sender. *)
Theorem removeTx_touches_only_the_sender (w : WrappedTransaction Tx)
    (txMap : txListBySenderMap L) :
  let s := GetSndAddr (Tx_ w) in
  (backingMap txMap !! s = None → removeTx w txMap = (txMap, false))
  ∧ (∀ s', s' ≠ s →
       backingMap (removeTx w txMap).1 !! s' = backingMap txMap !! s')
  ∧ dom (backingMap (removeTx w txMap).1) ⊆ dom (backingMap txMap).
Proof.
  intros s. unfold removeTx. fold s. unfold getListForSender, BucketSortedMap.Get.
  destruct (backingMap txMap !! s) as [l|] eqn:Hget.
  - destruct (listRemoveTx w l) as [l' isFound].
    apply elem_of_dom_2 in Hget.
    unfold removeSender, BucketSortedMap.Has, BucketSortedMap.Remove.
    split_and!; [done| |].
    + intros s' Hne.
      destruct (listIsEmpty l'); [case_bool_decide|]; simpl;
        rewrite ?lookup_delete_ne by done; by rewrite lookup_insert_ne.
    + destruct (listIsEmpty l'); [case_bool_decide|]; simpl;
        rewrite ?dom_delete_L, dom_insert_L; set_solver.
  - split_and!; done.
Qed.

End MoreMapFacts.

(** ** Concurrent callers of [addTx]: what holds all along *)
Section MoreLazyCreationFacts.
Import TxListBySenderMap LazyCreation.
Variable sender : string.
Implicit Types (w : World) (pc : Pc) (i j : nat).

(** The shared state of a world that keeps the invariant. *)
Lemma worldInv_shared w :
  worldInv sender w →
  (backingMap (shared w) = ∅ ∧ (created w ≤ 1)%nat ∧ counter (shared w) = 0)
  ∨ (backingMap (shared w) = {[sender := 0%nat]} ∧ created w = 1%nat
     ∧ (counter (shared w) = 0 ∨ counter (shared w) = 1)).
Proof.
  intros (Hpcs & Hfree & Hheld).
  assert (Hsettled : settled sender w →
    (backingMap (shared w) = ∅ ∧ (created w ≤ 1)%nat ∧ counter (shared w) = 0)
    ∨ (backingMap (shared w) = {[sender := 0%nat]} ∧ created w = 1%nat
       ∧ (counter (shared w) = 0 ∨ counter (shared w) = 1))).
  { intros [(Hm & Hc & Hn)|(Hm & Hc & Hn)]; [left|right]; split_and!; auto; lia. }
  destruct (mutex w) as [j|] eqn:Hmutex; [|by apply Hsettled, Hfree].
  destruct (Hheld j eq_refl) as [pcj Hj].
  destruct (Hpcs j pcj Hj) as [Hinv [_ Hcrit]]. specialize (Hcrit eq_refl).
  destruct pcj; simpl in Hinv, Hcrit; try done.
  - by apply Hsettled.
  - destruct Hinv as (Hm & Hc & Hn). left. split_and!; auto; lia.
  - destruct Hinv as (Hm & Hc & Hn & _). left. split_and!; auto; lia.
  - destruct Hinv as (Hm & Hc & Hn & _). right. split_and!; auto.
  - destruct Hinv as (Hm & Hc & Hn & _). right. split_and!; auto.
Qed.

(** X22. At every point of every execution of callers of [addTx] for one
  new sender: at most one caller is between [Lock] and [Unlock], at most
  one list has been created, the index holds no other entry than this
  list, and the counter is 0 or 1, and 1 only when the list is in the
  index. *)
Theorem concurrent_callers_never_create_a_second_list (n : nat)
    (schedule : list nat) (w : World) :
  exec sender schedule (initial n) = Some w →
  (∀ i j pci pcj, callers w !! i = Some pci → callers w !! j = Some pcj →
     critical pci = true → critical pcj = true → i = j)
  ∧ (created w ≤ 1)%nat
  ∧ (backingMap (shared w) = ∅ ∨ backingMap (shared w) = {[sender := 0%nat]})
  ∧ (counter (shared w) = 0 ∨ counter (shared w) = 1)
  ∧ (counter (shared w) = 1 →
       backingMap (shared w) = {[sender := 0%nat]} ∧ created w = 1%nat).
Proof.
  intros Hexec.
  pose proof (exec_inv sender schedule _ _ (initial_inv sender n) Hexec) as Hinv.
  pose proof (worldInv_shared w Hinv) as Hshared.
  destruct Hinv as (Hpcs & _ & _).
  split_and!.
  - intros i j pci pcj Hi Hj Hci Hcj.
    destruct (Hpcs i pci Hi) as [_ [Hmi _]]. destruct (Hpcs j pcj Hj) as [_ [Hmj _]].
    specialize (Hmi Hci). specialize (Hmj Hcj). congruence.
  - destruct Hshared as [(_ & Hc & _)|(_ & Hc & _)]; lia.
  - destruct Hshared as [(Hm & _)|(Hm & _)]; auto.
  - destruct Hshared as [(_ & _ & Hn)|(_ & _ & Hn)]; auto.
  - intros Hone. destruct Hshared as [(_ & _ & Hn)|(Hm & Hc & _)]; [lia|done].
Qed.

End MoreLazyCreationFacts.

(** ** The further properties on concrete lists *)
Section MoreExamples.
Import TxListForSender TxListBySenderMap Sample.

Lemma oneTx_bytesExact : bytesExact oneTx.
Proof. apply (run_bytesExact [OpAddTx hashA txA] "alice"). Qed.

Lemma totalBytes_is_exact_witness :
  let l := run [OpAddTx hashA txA; OpAddTx hashB txB; OpRemoveTx txA]
             (newTxListForSender "alice") in
  - 2 ^ 63 ≤ sumSize (items l) < 2 ^ 63 ∧ totalBytes l = sumSize (items l).
Proof.
  intros l.
  assert (Hrange : - 2 ^ 63 ≤ sumSize (items l) < 2 ^ 63).
  { split; [apply Z.leb_le|apply Z.ltb_lt]; vm_compute; reflexivity. }
  split; [exact Hrange|].
  exact (proj2 (totalBytes_is_exact "alice"
                  [OpAddTx hashA txA; OpAddTx hashB txB; OpRemoveTx txA]) Hrange).
Defined.

Lemma txC_not_in_oneTx : ∀ e, e ∈ items oneTx → tx (Value e) ≠ txC.
Proof. intros e ->%list_elem_of_singleton. done. Qed.

Lemma AddTx_then_RemoveTx_witness :
  wellFormed oneTx ∧ bytesExact oneTx
  ∧ items (RemoveTx txC (AddTx hashC txC oneTx)).1 = items oneTx.
Proof.
  split; [exact oneTx_wellFormed|]. split; [exact oneTx_bytesExact|].
  exact (proj1 (proj2 (AddTx_then_RemoveTx oneTx hashC txC
                         oneTx_wellFormed oneTx_bytesExact txC_not_in_oneTx))).
Defined.

Lemma RemoveTx_txA_found : (RemoveTx txA threeTxs).2 = true.
Proof. reflexivity. Qed.

Lemma RemoveTx_takes_out_the_first_witness :
  wellFormed threeTxs ∧ (RemoveTx txA threeTxs).2 = true
  ∧ ∃ xs m ys, items threeTxs = xs ++ m :: ys ∧ tx (Value m) = txA
      ∧ Forall (λ e, tx (Value e) ≠ txA) xs
      ∧ items (RemoveTx txA threeTxs).1 = xs ++ ys
      ∧ countTx (RemoveTx txA threeTxs).1 = countTx threeTxs - 1.
Proof.
  split; [exact threeTxs_wellFormed|]. split; [exact RemoveTx_txA_found|].
  exact (RemoveTx_takes_out_the_first threeTxs txA threeTxs_wellFormed
           RemoveTx_txA_found).
Defined.

Lemma threeTxs_small : countTx threeTxs < 2 ^ 32.
Proof. reflexivity. Qed.

Lemma HasMoreThan_counts_witness :
  countTx threeTxs < 2 ^ 32
  ∧ (HasMoreThan 2 threeTxs = true ↔ (2 < length (items threeTxs))%nat).
Proof.
  split; [exact threeTxs_small|].
  exact (proj1 (HasMoreThan_counts threeTxs 2 threeTxs_small)).
Defined.

Lemma threeTxs_more_than_two : HasMoreThan 2 threeTxs = true.
Proof. reflexivity. Qed.

Lemma HasMoreThan_then_RemoveHighNonceTxs_witness :
  wellFormed threeTxs ∧ countTx threeTxs < 2 ^ 32 ∧ HasMoreThan 2 threeTxs = true
  ∧ length (RemoveHighNonceTxs 2 threeTxs).2 = 2%nat.
Proof.
  split; [exact threeTxs_wellFormed|]. split; [exact threeTxs_small|].
  split; [exact threeTxs_more_than_two|].
  exact (proj1 (proj2 (HasMoreThan_then_RemoveHighNonceTxs threeTxs 2
                         threeTxs_wellFormed threeTxs_small threeTxs_more_than_two))).
Defined.


Lemma getHighestNonceTx_is_highest_witness :
  sortedByNonce (items threeTxs)
  ∧ (getHighestNonceTx threeTxs = None ↔ items threeTxs = []).
Proof.
  split; [exact threeTxs_sorted|].
  exact (proj1 (getHighestNonceTx_is_highest threeTxs threeTxs_sorted)).
Defined.

Lemma RemoveHighNonceTxs_twice_witness :
  wellFormed threeTxs
  ∧ items (RemoveHighNonceTxs 1 (RemoveHighNonceTxs 1 threeTxs).1).1
    = items (RemoveHighNonceTxs (1 + 1) threeTxs).1.
Proof.
  split; [exact threeTxs_wellFormed|].
  exact (RemoveHighNonceTxs_twice threeTxs 1 1 threeTxs_wellFormed).
Defined.

Lemma RemoveHighNonceTxs_returns_the_tail_witness :
  wellFormed oneTx
  ∧ drop 1 (RemoveHighNonceTxs 2 oneTx).2 = replicate (2 - 1) [].
Proof.
  split; [exact oneTx_wellFormed|].
  exact (proj2 (RemoveHighNonceTxs_returns_the_tail oneTx 2 oneTx_wellFormed)).
Defined.

Lemma sweeping_wellFormed : wellFormed sweeping.
Proof. exact threeTxs_wellFormed. Qed.

Lemma sweeping_cursor : cursorAt sweeping 0.
Proof. reflexivity. Qed.

Lemma copyBatchTo_batchSize_not_positive_witness :
  wellFormed sweeping ∧ cursorAt sweeping 0
  ∧ (length (buffer 2) ≤ length (hashBuffer 2))%nat ∧ -1 ≤ 0
  ∧ ∃ l' r, copyBatchTo false (buffer 2) (hashBuffer 2) (-1) sweeping = Some (l', r)
      ∧ copied r = 2%nat
      ∧ take 2 (destination r) = handlersOf (take 2 (drop 0 (items sweeping)))
      ∧ take 2 (destinationHashes r) = hashesOf (take 2 (drop 0 (items sweeping)))
      ∧ cursorAt l' (0 + 2).
Proof.
  assert (Hlen : (length (buffer 2) ≤ length (hashBuffer 2))%nat) by (simpl; lia).
  assert (Hneg : -1 ≤ 0) by lia.
  split; [exact sweeping_wellFormed|]. split; [exact sweeping_cursor|].
  split; [exact Hlen|]. split; [exact Hneg|].
  exact (copyBatchTo_batchSize_not_positive sweeping 0 (buffer 2) (hashBuffer 2) (-1)
           sweeping_wellFormed sweeping_cursor Hlen Hneg).
Defined.

Lemma copyBatchTo_panics_on_short_hashes_witness :
  wellFormed sweeping ∧ cursorAt sweeping 0
  ∧ (copyBatchTo false (buffer 2) (hashBuffer 1) 2 sweeping = None
     ↔ (length (hashBuffer 1)
        < copyCount 2 0 (length (buffer 2)) (length (items sweeping) - 0))%nat).
Proof.
  split; [exact sweeping_wellFormed|]. split; [exact sweeping_cursor|].
  exact (proj1 (copyBatchTo_panics_on_short_hashes sweeping 0 (buffer 2)
                  (hashBuffer 1) 2 sweeping_wellFormed sweeping_cursor)).
Defined.

Lemma copyBatchTo_writes_only_the_copied_slots_witness :
  match copyBatchTo true (buffer 4) (hashBuffer 4) 2 threeTxs with
  | Some (l', r) => (copied r ≤ length (buffer 4))%nat
  | None => False
  end.
Proof.
  destruct (copyBatchTo true (buffer 4) (hashBuffer 4) 2 threeTxs)
    as [[l' r]|] eqn:Hcopy.
  - exact (proj1 (copyBatchTo_writes_only_the_copied_slots threeTxs true
                    (buffer 4) (hashBuffer 4) 2 l' r Hcopy)).
  - vm_compute in Hcopy. discriminate Hcopy.
Defined.

Lemma sweeping_on_entryC : copyBatchIndex sweeping = Some entryC.
Proof. reflexivity. Qed.

Lemma sweeping_finds_entryC : findListElementWithTx (items sweeping) txC = Some entryC.
Proof. reflexivity. Qed.

Lemma copyBatchTo_after_removal_of_the_cursor_entry_witness :
  wellFormed sweeping ∧ copyBatchIndex sweeping = Some entryC
  ∧ findListElementWithTx (items sweeping) txC = Some entryC ∧ 2 ≠ 0
  ∧ copyBatchTo false (None :: buffer 1) ([] :: hashBuffer 1) 2 (RemoveTx txC sweeping).1
    = Some (setCopyBatchIndex None (RemoveTx txC sweeping).1,
            mkCopy None 1 (Some (tx (Value entryC)) :: buffer 1)
              (txHash (Value entryC) :: hashBuffer 1)).
Proof.
  assert (Hbatch : 2 ≠ 0) by lia.
  split; [exact sweeping_wellFormed|]. split; [exact sweeping_on_entryC|].
  split; [exact sweeping_finds_entryC|]. split; [exact Hbatch|].
  exact (proj2 (copyBatchTo_after_removal_of_the_cursor_entry sweeping entryC txC
                  None (buffer 1) [] (hashBuffer 1) 2
                  sweeping_wellFormed sweeping_on_entryC sweeping_finds_entryC Hbatch)).
Defined.

Lemma sweeping_sorted : sortedByNonce (items sweeping).
Proof. exact threeTxs_sorted. Qed.

Lemma sweeping_first : items sweeping !! 0%nat = Some entryC.
Proof. reflexivity. Qed.

Lemma AddTx_keeps_the_cursor_entry_witness :
  wellFormed sweeping ∧ sortedByNonce (items sweeping)
  ∧ copyBatchIndex sweeping = Some entryC ∧ items sweeping !! 0%nat = Some entryC
  ∧ items (AddTx hashA txD sweeping) !! 1%nat = Some entryC.
Proof.
  split; [exact sweeping_wellFormed|]. split; [exact sweeping_sorted|].
  split; [exact sweeping_on_entryC|]. split; [exact sweeping_first|].
  exact (proj1 (proj2 (AddTx_keeps_the_cursor_entry sweeping hashA txD 0 entryC
                         sweeping_wellFormed sweeping_sorted
                         sweeping_on_entryC sweeping_first))).
Defined.

Lemma concurrent_callers_never_create_a_second_list_witness :
  LazyCreation.exec "alice" (take 5 raceSchedule) (LazyCreation.initial 2)
  = Some (LazyCreation.mkWorld (mkMap ∅ 0) (Some 1%nat) 1
            [LazyCreation.AtLock; LazyCreation.AtSet 0])
  ∧ (LazyCreation.created
       (LazyCreation.mkWorld (mkMap ∅ 0) (Some 1%nat) 1
          [LazyCreation.AtLock; LazyCreation.AtSet 0]) ≤ 1)%nat.
Proof.
  assert (Hexec : LazyCreation.exec "alice" (take 5 raceSchedule) (LazyCreation.initial 2)
    = Some (LazyCreation.mkWorld (mkMap ∅ 0) (Some 1%nat) 1
              [LazyCreation.AtLock; LazyCreation.AtSet 0]))
    by (vm_compute; reflexivity).
  split; [exact Hexec|].
  exact (proj1 (proj2 (concurrent_callers_never_create_a_second_list "alice" 2
                         (take 5 raceSchedule) _ Hexec))).
Defined.

End MoreExamples.
